(** * aclswarm / codegen_admm / ADMMGainDesign3D

    Verification of the sparse-matrix support routines of the ADMM gain
    design kernel: the two insertion sorts of [insertionsort.cpp], and the
    contract of [sparse_vertcat] (vertcat.h).

    Layout: machine integers and arrays, the embedding of the two sort
    routines, the functional insertion sort they refine, the sparse-matrix
    contracts, and then the theorems. *)

From Stdlib Require Import ZArith Lia Sorting.Sorted Sorting.Permutation.
From stdpp Require Import base tactics option numbers list sorting.

Local Open Scope Z_scope.

(** ** The C [int]: 32 bits, two's complement *)

Module Int32.

Definition int_min : Z := - 2 ^ 31.
Definition int_max : Z := 2 ^ 31 - 1.

(** Reduction of a mathematical integer to its 32-bit representative. *)
Definition wrap (z : Z) : Z := (z + 2 ^ 31) `mod` 2 ^ 32 - 2 ^ 31.

Definition add (a b : Z) : Z := wrap (a + b).
Definition sub (a b : Z) : Z := wrap (a - b).

Definition in_range (z : Z) : Prop := int_min <= z <= int_max.

End Int32.

(** ** Outcomes of a run

    A run of a routine either returns, or touches memory outside an array
    ([Fault]: undefined behaviour in the source), or is cut off by the
    iteration budget of the embedding ([Timeout]). *)

Inductive outcome (A : Type) : Type :=
| Done (a : A)
| Fault
| Timeout.

Arguments Done {A} a.
Arguments Fault {A}.
Arguments Timeout {A}.

Global Instance outcome_ret : MRet outcome := fun A a => Done a.
Global Instance outcome_bind : MBind outcome := fun A B k m =>
  match m with
  | Done a => k a
  | Fault => Fault
  | Timeout => Timeout
  end.

Global Instance outcome_fmap : FMap outcome := fun A B f m =>
  match m with
  | Done a => Done (f a)
  | Fault => Fault
  | Timeout => Timeout
  end.

(** A routine given [fuel] loop iterations returns [a] once the budget is
    large enough, and keeps returning [a] for every larger budget. *)
Definition returns {A : Type} (run : nat -> outcome A) (a : A) : Prop :=
  exists n : nat, forall fuel : nat, (n <= fuel)%nat -> run fuel = Done a.

(** More budget never changes an outcome that is not [Timeout]. *)
Definition fuel_stable {A : Type} (run : nat -> outcome A) : Prop :=
  forall fuel, run fuel <> Timeout -> run (S fuel) = run fuel.

(** ** Arrays: the [data] field of an [emxArray] *)

Section Arrays.
Context {A : Type}.

(** [a->data[i]] as an rvalue. *)
Definition load (a : list A) (i : Z) : outcome A :=
  if 0 <=? i then
    match a !! Z.to_nat i with
    | Some v => Done v
    | None => Fault
    end
  else Fault.

(** [a->data[i] = v]. *)
Definition store (a : list A) (i : Z) (v : A) : outcome (list A) :=
  if (0 <=? i) && (i <? Z.of_nat (length a)) then Done (<[Z.to_nat i := v]> a)
  else Fault.

(** The elements at the 1-based positions [first .. last]. *)
Definition range (a : list A) (first last : Z) : list A :=
  take (Z.to_nat (last + 1 - first)) (drop (Z.to_nat (first - 1)) a).

(** The elements in front of the 1-based position [first]. *)
Definition before (a : list A) (first : Z) : list A :=
  take (Z.to_nat (first - 1)) a.

(** The elements behind the 1-based position [last]. *)
Definition after (a : list A) (last : Z) : list A :=
  drop (Z.to_nat last) a.

End Arrays.

Arguments load : simpl never.
Arguments store : simpl never.

(** ** insertionsort.cpp *)

(** [b_insertionsort], the inner [while] loop:
<<
    while ((idx >= xstart) && (xc < x->data[idx - 1])) {
      x->data[idx] = x->data[idx - 1];
      idx--;
    }
>> *)
Fixpoint b_insertionsort_while (fuel : nat) (x : list Z) (xstart xc idx : Z)
  : outcome (list Z * Z) :=
  match fuel with
  | O => Timeout
  | S fuel' =>
      if xstart <=? idx then
        v ← load x (Int32.sub idx 1);
        if xc <? v then
          v' ← load x (Int32.sub idx 1);
          x' ← store x idx v';
          b_insertionsort_while fuel' x' xstart xc (Int32.sub idx 1)
        else Done (x, idx)
      else Done (x, idx)
  end.

(** [b_insertionsort], the [for] loop over [k]:
<<
    for (k = i; k <= xend; k++) {
      xc = x->data[k - 1];
      idx = k - 1;
      while ...
      x->data[idx] = xc;
    }
>> *)
Fixpoint b_insertionsort_for (fuel : nat) (x : list Z) (xstart xend k : Z)
  : outcome (list Z) :=
  match fuel with
  | O => Timeout
  | S fuel' =>
      if k <=? xend then
        xc ← load x (Int32.sub k 1);
        '(x1, idx) ← b_insertionsort_while fuel' x xstart xc (Int32.sub k 1);
        x2 ← store x1 idx xc;
        b_insertionsort_for fuel' x2 xstart xend (Int32.add k 1)
      else Done x
  end.

(** [void b_insertionsort(emxArray_int32_T *x, int xstart, int xend)] *)
Definition b_insertionsort (fuel : nat) (x : list Z) (xstart xend : Z)
  : outcome (list Z) :=
  let i := Int32.add xstart 1 in
  b_insertionsort_for fuel x xstart xend i.

(** Modelled from the spec: the struct [cell_wrap_3], which
    ADMMGainDesign3D_types.h declares and the sources do not include.  The
    routine reads [cmp_tunableEnvironment[0].f1->data] and
    [cmp_tunableEnvironment[1].f1->data]; section 4.2 calls them the
    comparison vectors [keyA] and [keyB], which [x] indexes from 1.  Their
    entries are taken to be [int]s, as those of [x] are. *)
Record cell_wrap_3 : Type := { f1 : list Z }.

(** The memory the keyed sort works on: the array [x] it permutes, and the
    two captured vectors, which are distinct arrays. *)
Record sort_mem : Type := {
  x_data : list Z;
  env0 : cell_wrap_3;
  env1 : cell_wrap_3
}.

Definition set_x (m : sort_mem) (x : list Z) : sort_mem :=
  {| x_data := x; env0 := env0 m; env1 := env1 m |}.

(** The comparator, with the evaluation order and short circuits of the
    source expression:
<<
    varargout_1 = ((e[0].f1->data[xc] < e[0].f1->data[x->data[idx] - 1]) ||
                   ((e[0].f1->data[xc] == e[0].f1->data[x->data[idx] - 1]) &&
                    (e[1].f1->data[xc] < e[1].f1->data[x->data[idx] - 1])));
>> *)
Definition insertionsort_cmp (m : sort_mem) (xc idx : Z) : outcome bool :=
  a ← load (f1 (env0 m)) xc;
  xi ← load (x_data m) idx;
  a' ← load (f1 (env0 m)) (Int32.sub xi 1);
  if a <? a' then Done true
  else
    a ← load (f1 (env0 m)) xc;
    xi ← load (x_data m) idx;
    a' ← load (f1 (env0 m)) (Int32.sub xi 1);
    if a =? a' then
      b ← load (f1 (env1 m)) xc;
      xi ← load (x_data m) idx;
      b' ← load (f1 (env1 m)) (Int32.sub xi 1);
      Done (b <? b')
    else Done false.

(** [insertionsort], the inner [while] loop with its exit flag:
<<
    while ((!exitg1) && (idx + 1 >= xstart)) {
      varargout_1 = ...;
      if (varargout_1) {
        x->data[idx + 1] = x->data[idx];
        idx--;
      } else {
        exitg1 = true;
      }
    }
>> *)
Fixpoint insertionsort_while (fuel : nat) (m : sort_mem) (xstart xc idx : Z)
    (exitg1 : bool) : outcome (sort_mem * Z) :=
  match fuel with
  | O => Timeout
  | S fuel' =>
      if negb exitg1 && (xstart <=? Int32.add idx 1) then
        varargout_1 ← insertionsort_cmp m xc idx;
        if (varargout_1 : bool) then
          v ← load (x_data m) idx;
          x' ← store (x_data m) (Int32.add idx 1) v;
          insertionsort_while fuel' (set_x m x') xstart xc (Int32.sub idx 1) exitg1
        else insertionsort_while fuel' m xstart xc idx true
      else Done (m, idx)
  end.

(** [insertionsort], the [for] loop over [k]:
<<
    for (k = i; k <= xend; k++) {
      xc = x->data[k - 1] - 1;
      idx = k - 2;
      exitg1 = false;
      while ...
      x->data[idx + 1] = xc + 1;
    }
>> *)
Fixpoint insertionsort_for (fuel : nat) (m : sort_mem) (xstart xend k : Z)
  : outcome sort_mem :=
  match fuel with
  | O => Timeout
  | S fuel' =>
      if k <=? xend then
        v ← load (x_data m) (Int32.sub k 1);
        let xc := Int32.sub v 1 in
        '(m1, idx) ← insertionsort_while fuel' m xstart xc (Int32.sub k 2) false;
        x2 ← store (x_data m1) (Int32.add idx 1) (Int32.add xc 1);
        insertionsort_for fuel' (set_x m1 x2) xstart xend (Int32.add k 1)
      else Done m
  end.

(** [void insertionsort(emxArray_int32_T *x, int xstart, int xend,
                        const cell_wrap_3 cmp_tunableEnvironment[2])] *)
Definition insertionsort (fuel : nat) (m : sort_mem) (xstart xend : Z)
  : outcome sort_mem :=
  let i := Int32.add xstart 1 in
  insertionsort_for fuel m xstart xend i.

Definition mk_mem (x keyA keyB : list Z) : sort_mem :=
  {| x_data := x; env0 := {| f1 := keyA |}; env1 := {| f1 := keyB |} |}.

(** ** [b_insertionsort] on elements that carry a payload

    The same routine, run on an array whose elements are compared through
    their integer value [val] and may carry further data.  It is the
    instrument that makes the order of equal integers observable. *)

Section Tagged.
Context {T : Type} (val : T -> Z).

Fixpoint b_insertionsort_while_on (fuel : nat) (x : list T) (xstart : Z)
    (xc : T) (idx : Z) : outcome (list T * Z) :=
  match fuel with
  | O => Timeout
  | S fuel' =>
      if xstart <=? idx then
        v ← load x (Int32.sub idx 1);
        if val xc <? val v then
          v' ← load x (Int32.sub idx 1);
          x' ← store x idx v';
          b_insertionsort_while_on fuel' x' xstart xc (Int32.sub idx 1)
        else Done (x, idx)
      else Done (x, idx)
  end.

Fixpoint b_insertionsort_for_on (fuel : nat) (x : list T) (xstart xend k : Z)
  : outcome (list T) :=
  match fuel with
  | O => Timeout
  | S fuel' =>
      if k <=? xend then
        xc ← load x (Int32.sub k 1);
        '(x1, idx) ← b_insertionsort_while_on fuel' x xstart xc (Int32.sub k 1);
        x2 ← store x1 idx xc;
        b_insertionsort_for_on fuel' x2 xstart xend (Int32.add k 1)
      else Done x
  end.

Definition b_insertionsort_on (fuel : nat) (x : list T) (xstart xend : Z)
  : outcome (list T) :=
  let i := Int32.add xstart 1 in
  b_insertionsort_for_on fuel x xstart xend i.

(** The comparison the routine applies to two elements. *)
Definition val_lt (a b : T) : bool := val a <? val b.

End Tagged.

(** ** The functional insertion sort both routines refine

    One pass of either routine takes the element [xc] behind the sorted
    part and moves it to the left past every element it is strictly less
    than.  [shift_in] does this on the sorted part listed from right to
    left, the direction in which the [while] loops scan it. *)

Section Isort.
Context {A : Type} (lt : A -> A -> bool).

Fixpoint shift_in (xc : A) (r : list A) : list A :=
  match r with
  | [] => [xc]
  | v :: r' => if lt xc v then v :: shift_in xc r' else xc :: r
  end.

Definition insert_last (s : list A) (xc : A) : list A :=
  reverse (shift_in xc (reverse s)).

(** Insert the elements of [u], left to right, into the sorted part [s]. *)
Definition isort_from (s u : list A) : list A := foldl insert_last s u.

Definition isort (l : list A) : list A := isort_from [] l.

(** [a] may stand in front of [b]. *)
Definition ord_le (a b : A) : Prop := lt b a = false.

End Isort.

(** ** The comparator of [insertionsort] as a function of two indices *)

(** [key->data[v - 1]], the entry of a comparison vector that the 1-based
    index [v] designates. *)
Definition key_at (key : list Z) (v : Z) : Z :=
  default 0 (key !! Z.to_nat (v - 1)).

(** The comparator on two 1-based indices: first vector, then second. *)
Definition key_lt (keyA keyB : list Z) (v w : Z) : bool :=
  (key_at keyA v <? key_at keyA w) ||
  ((key_at keyA v =? key_at keyA w) && (key_at keyB v <? key_at keyB w)).

(** [v] is an [int] that designates an entry of both comparison vectors. *)
Definition key_index (keyA keyB : list Z) (v : Z) : Prop :=
  1 <= v /\ v <= Z.of_nat (length keyA) /\ v <= Z.of_nat (length keyB) /\
  v <= Int32.int_max.

(** ** Sparse matrices in compressed-column form (vertcat.h, CXSparseAPI.h) *)

(** Modelled from the spec: the struct [coder_internal_sparse], which
    ADMMGainDesign3D_types.h declares and the sources do not include.  The
    fields are those the two headers pass around, with the meaning section 3
    gives them: [d] the stored values, [colidx] the column pointers
    ([numCols + 1] of them, counted from 0), [rowidx] the row index of each
    value, [m] the number of rows and [n] the number of columns.  Values
    are only moved, never computed with, so their type [V] is left open. *)
Record coder_internal_sparse (V : Type) : Type := {
  d : list V;
  colidx : list Z;
  rowidx : list Z;
  m : Z;
  n : Z
}.

Arguments d {V} _.
Arguments colidx {V} _.
Arguments rowidx {V} _.
Arguments m {V} _.
Arguments n {V} _.

(** Modelled from the spec: the failures of section 7 that reach the
    caller. *)
Inductive error : Type := ShapeMismatch | SingularSystem.

Inductive result (A : Type) : Type :=
| Ok (a : A)
| Err (e : error).

Arguments Ok {A} a.
Arguments Err {A} e.

(** The elements of [l] at the 0-based positions [lo .. hi - 1]. *)
Definition slice {A : Type} (l : list A) (lo hi : nat) : list A :=
  take (hi - lo) (drop lo l).

Section Sparse.
Context {V : Type}.
Implicit Types (A top bottom : coder_internal_sparse V).

(** [colidx[j]]: where column [j] starts in [d] and [rowidx]. *)
Definition col_ptr A (j : nat) : nat := Z.to_nat (default 0 (colidx A !! j)).

(** Column [j] occupies the positions [colidx[j] .. colidx[j+1] - 1]. *)
Definition col_rows A (j : nat) : list Z :=
  slice (rowidx A) (col_ptr A j) (col_ptr A (S j)).

Definition col_vals A (j : nat) : list V :=
  slice (d A) (col_ptr A j) (col_ptr A (S j)).

Definition num_cols A : nat := Z.to_nat (n A).

(** Total number of stored entries. *)
Definition nnz A : nat := length (d A).

(** The matrix with its row-index array replaced. *)
Definition set_rowidx A (x : list Z) : coder_internal_sparse V :=
  {| d := d A; colidx := colidx A; rowidx := x; m := m A; n := n A |}.

(** Modelled from the spec: the layout of section 3.  The column pointers
    start at 0, do not decrease, end at the number of stored entries, and
    there is one row index per value. *)
Record csc_shape A : Prop := {
  shape_m : 0 <= m A;
  shape_n : 0 <= n A;
  shape_colidx : length (colidx A) = S (num_cols A);
  shape_nonneg : Forall (fun p => 0 <= p) (colidx A);
  shape_first : col_ptr A 0 = 0%nat;
  shape_mono : forall j, (j < num_cols A)%nat -> (col_ptr A j <= col_ptr A (S j))%nat;
  shape_last : col_ptr A (num_cols A) = length (rowidx A);
  shape_d : length (d A) = length (rowidx A)
}.

(** Modelled from the spec: the invariant of section 3, within each
    column the row indices are strictly increasing. *)
Definition csc_sorted A : Prop :=
  forall j, (j < num_cols A)%nat -> StronglySorted Z.lt (col_rows A j).

(** A matrix in CSC form: well laid out, every row index a row of the
    matrix, every column strictly increasing. *)
Record csc_form A : Prop := {
  form_shape : csc_shape A;
  form_rows : Forall (fun r => 0 <= r < m A) (rowidx A);
  form_sorted : csc_sorted A
}.

(** Modelled from the spec: column [j] of the result of [sparse_vertcat]
    (section 4.1), [top]'s entries with their row indices, then [bottom]'s
    with row indices shifted by [top.numRows]. *)
Definition vertcat_rows top bottom (j : nat) : list Z :=
  col_rows top j ++ ((fun r => r + m top) <$> col_rows bottom j).

Definition vertcat_vals top bottom (j : nat) : list V :=
  col_vals top j ++ col_vals bottom j.

(** Modelled from the spec: the body of [sparse_vertcat] (vertcat.h declares
    it, its definition is not part of the sources).  By section 4.1 the
    column counts must agree, else [ShapeMismatch]; the result has
    [top.numRows + bottom.numRows] rows and [top.numCols] columns; column
    [j] holds [top]'s column-[j] entries with their row indices, followed by
    [bottom]'s column-[j] entries with row indices shifted by
    [top.numRows]; the new column pointers are sized by the per-column
    nonzero counts of the inputs. *)
Definition sparse_vertcat top bottom : result (coder_internal_sparse V) :=
  if n top =? n bottom then
    let cols := seq 0 (num_cols top) in
    Ok {| d := flat_map (vertcat_vals top bottom) cols;
          colidx :=
            (fun j => Z.of_nat (length (flat_map (vertcat_rows top bottom) (seq 0 j))))
              <$> seq 0 (S (num_cols top));
          rowidx := flat_map (vertcat_rows top bottom) cols;
          m := m top + m bottom;
          n := n top |}
  else Err ShapeMismatch.

(** The bounds of column [j] as the 1-based range the sort routines take. *)
Definition col_first A (j : nat) : Z := Z.of_nat (col_ptr A j) + 1.
Definition col_last A (j : nat) : Z := Z.of_nat (col_ptr A (S j)).

End Sparse.

(** ** Small matrices used as examples *)

(** The 3 x 2 matrix [[1,0],[0,2],[3,4]]. *)
Definition example_top : coder_internal_sparse Z :=
  {| d := [1; 3; 2; 4]; colidx := [0; 2; 4]; rowidx := [0; 2; 1; 2]; m := 3; n := 2 |}.

Definition example_bottom : coder_internal_sparse Z :=
  {| d := [7; 8]; colidx := [0; 1; 2]; rowidx := [0; 0]; m := 1; n := 2 |}.

(** Two columns with well-formed pointers; the first is not sorted. *)
Definition example_unsorted : coder_internal_sparse Z :=
  {| d := [3; 1; 2; 4]; colidx := [0; 2; 4]; rowidx := [2; 1; 1; 2]; m := 3; n := 2 |}.

(** A matrix in CSC form with the single column [{1, 2}]. *)
Definition example_column : coder_internal_sparse Z :=
  {| d := [10; 20]; colidx := [0; 2]; rowidx := [1; 2]; m := 3; n := 1 |}.

(** Column by column, for a matrix given in full. *)
Ltac each_column :=
  let j := fresh "j" in
  let Hj := fresh "Hj" in
  intros j Hj; unfold num_cols in Hj; simpl in Hj;
  repeat first [ lia | destruct j as [|j]; [vm_compute; repeat constructor; lia |] ].

Ltac closed_shape :=
  split;
  [ simpl; lia | simpl; lia | reflexivity | simpl; repeat constructor; lia
  | reflexivity | each_column | reflexivity | reflexivity ].

(** * Facts and theorems *)

(** ** The routines on small inputs *)

Example int_add_wraps : Int32.add Int32.int_max 1 = Int32.int_min.
Proof. reflexivity. Qed.

Example b_insertionsort_run :
  b_insertionsort 20 [5; 3; 9; 1; 3; 7] 2 5 = Done [5; 1; 3; 3; 9; 7].
Proof. reflexivity. Qed.

(** With [xstart = 0] the scan reaches [x->data[-1]]. *)
Example b_insertionsort_start_0 : b_insertionsort 20 [5; 3; 9] 0 3 = Fault.
Proof. reflexivity. Qed.

(** With [xend] behind the array the pass for [k = 4] reads [x->data[3]]. *)
Example b_insertionsort_past_end : b_insertionsort 20 [5; 3; 9] 1 4 = Fault.
Proof. reflexivity. Qed.

(** Keys of the indices 3, 1, 2, 4: (5,0), (7,2), (7,1), (7,1). *)
Example insertionsort_run :
  insertionsort 20 (mk_mem [3; 1; 2; 4] [7; 7; 5; 7] [2; 1; 0; 1]) 1 4 =
  Done (mk_mem [3; 2; 4; 1] [7; 7; 5; 7] [2; 1; 0; 1]).
Proof. reflexivity. Qed.

(** The index 5 designates no entry of vectors of length 4. *)
Example insertionsort_bad_index :
  insertionsort 20 (mk_mem [3; 1; 2; 5] [7; 7; 5; 7] [2; 1; 0; 1]) 1 4 = Fault.
Proof. reflexivity. Qed.

Lemma filter_none {A : Type} (P : A -> Prop) `{!forall a, Decision (P a)}
    (l : list A) :
  Forall (fun v => ~ P v) l -> filter P l = [].
Proof.
  induction 1 as [|v l Hv _ IH]; [reflexivity |].
  rewrite filter_cons_False by exact Hv. exact IH.
Qed.

(** ** The functional insertion sort: permutation, stability, order *)

Section IsortFacts.
Context {A : Type} (lt : A -> A -> bool).

Lemma shift_in_split xc r :
  exists r1 r2, r = r1 ++ r2 /\ shift_in lt xc r = r1 ++ xc :: r2 /\
    Forall (fun v => lt xc v = true) r1 /\
    (forall w r2', r2 = w :: r2' -> lt xc w = false).
Proof.
  induction r as [|v r IH]; simpl.
  - exists [], []. repeat split; [constructor | intros; discriminate].
  - destruct (lt xc v) eqn:E.
    + destruct IH as (r1 & r2 & -> & -> & H1 & H2).
      exists (v :: r1), r2. repeat split; auto.
    + exists [], (v :: r). repeat split; [constructor |].
      intros w r2' [= <- <-]. exact E.
Qed.

Lemma insert_last_split s xc :
  exists a1 a2, s = a1 ++ a2 /\ insert_last lt s xc = a1 ++ xc :: a2 /\
    Forall (fun v => lt xc v = true) a2 /\
    (forall w a1', a1 = a1' ++ [w] -> lt xc w = false).
Proof.
  unfold insert_last.
  destruct (shift_in_split xc (reverse s)) as (r1 & r2 & Hs & -> & H1 & H2).
  exists (reverse r2), (reverse r1). repeat split.
  - rewrite <- reverse_app, <- Hs. symmetry. apply reverse_involutive.
  - rewrite reverse_app, reverse_cons, <- app_assoc. reflexivity.
  - rewrite Forall_reverse. exact H1.
  - intros w a1' Ha. apply (H2 w (reverse a1')).
    rewrite <- (reverse_involutive r2), Ha, reverse_snoc. reflexivity.
Qed.

Lemma insert_last_nil xc : insert_last lt [] xc = [xc].
Proof. reflexivity. Qed.

Lemma length_insert_last s xc : length (insert_last lt s xc) = S (length s).
Proof.
  destruct (insert_last_split s xc) as (a1 & a2 & -> & -> & _).
  rewrite !length_app. simpl. lia.
Qed.

Lemma isort_from_cons s xc u :
  isort_from lt s (xc :: u) = isort_from lt (insert_last lt s xc) u.
Proof. reflexivity. Qed.

Lemma length_isort_from s u :
  length (isort_from lt s u) = (length s + length u)%nat.
Proof.
  revert s. induction u as [|xc u IH]; intros s.
  - simpl. lia.
  - rewrite isort_from_cons, IH, length_insert_last. simpl. lia.
Qed.

(** *** Permutation *)

Lemma insert_last_perm s xc : insert_last lt s xc ≡ₚ s ++ [xc].
Proof.
  destruct (insert_last_split s xc) as (a1 & a2 & -> & -> & _).
  rewrite <- app_assoc. apply Permutation_app_head.
  rewrite (Permutation_app_comm a2 [xc]). reflexivity.
Qed.

Lemma isort_from_perm s u : isort_from lt s u ≡ₚ s ++ u.
Proof.
  revert s. induction u as [|xc u IH]; intros s.
  - simpl. rewrite app_nil_r. reflexivity.
  - rewrite isort_from_cons, IH, insert_last_perm, <- app_assoc. reflexivity.
Qed.

(** *** Stability: a class of mutually unordered elements keeps its order *)

Lemma insert_last_filter (P : A -> Prop) `{!forall a, Decision (P a)} s xc :
  (forall a b, P a -> P b -> lt a b = false) ->
  filter P (insert_last lt s xc) = filter P (s ++ [xc]).
Proof.
  intros HP.
  destruct (insert_last_split s xc) as (a1 & a2 & -> & -> & H2 & _).
  rewrite <- app_assoc, !filter_app. f_equal.
  rewrite filter_cons, (filter_cons _ xc), filter_nil.
  destruct (decide (P xc)) as [Hxc|Hxc].
  - replace (filter P a2) with (@nil A); [reflexivity |].
    symmetry. apply filter_none.
    eapply Forall_impl; [exact H2 |]. simpl. intros v Hv Pv.
    rewrite (HP _ _ Hxc Pv) in Hv. discriminate.
  - rewrite app_nil_r. reflexivity.
Qed.

Lemma isort_from_filter (P : A -> Prop) `{!forall a, Decision (P a)} s u :
  (forall a b, P a -> P b -> lt a b = false) ->
  filter P (isort_from lt s u) = filter P (s ++ u).
Proof.
  intros HP. revert s. induction u as [|xc u IH]; intros s.
  - simpl. rewrite app_nil_r. reflexivity.
  - rewrite isort_from_cons, IH, filter_app, insert_last_filter by exact HP.
    rewrite <- filter_app, <- app_assoc. reflexivity.
Qed.

(** *** An already sorted list is left alone *)

Lemma insert_last_sorted s xc :
  (forall w s', s = s' ++ [w] -> lt xc w = false) ->
  insert_last lt s xc = s ++ [xc].
Proof.
  intros H. unfold insert_last.
  destruct s as [|w s'] using rev_ind; [reflexivity |].
  rewrite reverse_snoc. simpl. rewrite (H w s' eq_refl).
  rewrite reverse_cons, reverse_cons, reverse_involutive. reflexivity.
Qed.

Lemma isort_from_sorted s u :
  StronglySorted (ord_le lt) (s ++ u) -> isort_from lt s u = s ++ u.
Proof.
  revert s. induction u as [|xc u IH]; intros s Hs.
  - simpl. rewrite app_nil_r. reflexivity.
  - rewrite isort_from_cons, insert_last_sorted.
    + rewrite IH; rewrite <- app_assoc; [reflexivity | exact Hs].
    + intros w s' ->. rewrite <- !app_assoc in Hs.
      apply StronglySorted_app_1_r in Hs. simpl in Hs.
      apply StronglySorted_cons in Hs as [Hw _].
      apply Forall_cons in Hw as [Hw _]. exact Hw.
Qed.

(** *** Sortedness, for a comparison that is a strict weak order *)

Section Order.
Hypothesis lt_asym : forall a b, lt a b = true -> lt b a = false.
Hypothesis le_trans : forall a b c, ord_le lt a b -> ord_le lt b c -> ord_le lt a c.

Lemma insert_last_StronglySorted s xc :
  StronglySorted (ord_le lt) s -> StronglySorted (ord_le lt) (insert_last lt s xc).
Proof.
  intros Hs.
  destruct (insert_last_split s xc) as (a1 & a2 & -> & -> & H2 & H1).
  apply StronglySorted_app in Hs as (H12 & Ha1 & Ha2).
  apply StronglySorted_app. repeat split.
  - intros a b Ha Hb. apply elem_of_cons in Hb as [-> | Hb]; [| auto].
    destruct a1 as [|w a1'] using rev_ind; [inversion Ha |].
    clear IHa1'. specialize (H1 w a1' eq_refl).
    apply elem_of_app in Ha as [Ha | Ha].
    + apply le_trans with w; [| exact H1].
      apply StronglySorted_app in Ha1 as (Hw & _ & _).
      apply Hw; [exact Ha | apply list_elem_of_singleton; reflexivity].
    + apply list_elem_of_singleton in Ha as ->. exact H1.
  - exact Ha1.
  - apply StronglySorted_cons. split; [| exact Ha2].
    eapply Forall_impl; [exact H2 |]. simpl. intros v Hv.
    apply lt_asym. exact Hv.
Qed.

Lemma isort_from_StronglySorted s u :
  StronglySorted (ord_le lt) s -> StronglySorted (ord_le lt) (isort_from lt s u).
Proof.
  revert s. induction u as [|xc u IH]; intros s Hs; [exact Hs |].
  rewrite isort_from_cons. apply IH, insert_last_StronglySorted, Hs.
Qed.

Lemma isort_StronglySorted l : StronglySorted (ord_le lt) (isort lt l).
Proof. apply isort_from_StronglySorted. constructor. Qed.
End Order.

End IsortFacts.

(** ** Basic facts: integers, outcomes, arrays *)

Lemma wrap_in_range (z : Z) : Int32.in_range z -> Int32.wrap z = z.
Proof.
  unfold Int32.in_range, Int32.int_min, Int32.int_max, Int32.wrap. intros H.
  rewrite Z.mod_small; lia.
Qed.

Lemma returns_unique {A : Type} (run : nat -> outcome A) (a b : A) :
  returns run a -> returns run b -> a = b.
Proof.
  intros [n Hn] [m Hm].
  specialize (Hn (n `max` m)%nat ltac:(lia)).
  specialize (Hm (n `max` m)%nat ltac:(lia)). congruence.
Qed.

Section ArrayFacts.
Context {A : Type}.
Implicit Types (a pre tl : list A) (v h : A).

Lemma load_middle pre v tl i :
  i = Z.of_nat (length pre) -> load (pre ++ v :: tl) i = Done v.
Proof.
  intros ->. unfold load.
  rewrite (proj2 (Z.leb_le _ _)) by lia.
  rewrite Nat2Z.id, list_lookup_middle; reflexivity.
Qed.

Lemma store_middle pre h v tl i :
  i = Z.of_nat (length pre) ->
  store (pre ++ h :: tl) i v = Done (pre ++ v :: tl).
Proof.
  intros ->. unfold store.
  rewrite (proj2 (Z.leb_le _ _)) by lia.
  rewrite (proj2 (Z.ltb_lt _ _)) by (rewrite length_app; simpl; lia).
  simpl. rewrite Nat2Z.id, insert_app_r_alt, Nat.sub_diag by lia. reflexivity.
Qed.

(** A range that lies within the array splits the array in three. *)
Lemma range_split a first last :
  1 <= first -> last <= Z.of_nat (length a) -> first <= last + 1 ->
  a = before a first ++ range a first last ++ after a last /\
  Z.of_nat (length (before a first)) = first - 1 /\
  Z.of_nat (length (range a first last)) = last + 1 - first.
Proof.
  intros H1 H2 H3. unfold before, range, after. repeat split.
  - rewrite <- (take_drop (Z.to_nat (first - 1)) a) at 1. f_equal.
    rewrite <- (take_drop (Z.to_nat (last + 1 - first))
                  (drop (Z.to_nat (first - 1)) a)) at 1.
    f_equal. rewrite drop_drop. f_equal. lia.
  - rewrite length_take. lia.
  - rewrite length_take, length_drop. lia.
Qed.

Lemma range_middle pre mid post first last :
  first = Z.of_nat (length pre) + 1 ->
  last = Z.of_nat (length pre + length mid) ->
  range (pre ++ mid ++ post) first last = mid /\
  before (pre ++ mid ++ post) first = pre /\
  after (pre ++ mid ++ post) last = post.
Proof.
  intros -> ->. unfold range, before, after. repeat split.
  - replace (Z.to_nat (Z.of_nat (length pre) + 1 - 1)) with (length pre) by lia.
    rewrite drop_app_length.
    replace (Z.to_nat _) with (length mid) by lia.
    apply take_app_length.
  - replace (Z.to_nat _) with (length pre) by lia. apply take_app_length.
  - rewrite Nat2Z.id, app_assoc, <- length_app. apply drop_app_length.
Qed.

End ArrayFacts.

(** ** [b_insertionsort] refines the functional insertion sort *)

Section TaggedRefinement.
Context {T : Type} (val : T -> Z).
Implicit Types (pre s u post r tl : list T) (xc h : T).

(** The [while] loop and the store behind it put [xc] in its place. *)
Lemma b_insertionsort_while_on_place r : forall pre h tl xc xstart idx,
  xstart = Z.of_nat (length pre) + 1 ->
  idx = Z.of_nat (length pre + length r) ->
  idx <= Int32.int_max ->
  exists x1 i,
    returns (fun fuel =>
               b_insertionsort_while_on val fuel (pre ++ reverse r ++ h :: tl)
                 xstart xc idx) (x1, i) /\
    store x1 i xc = Done (pre ++ reverse (shift_in (val_lt val) xc r) ++ tl).
Proof.
  induction r as [|v r IH]; intros pre h tl xc xstart idx Hs Hi Hmax.
  - exists (pre ++ h :: tl), idx. split.
    + exists 1%nat. intros [|fuel] Hf; [lia |]. simpl.
      rewrite (proj2 (Z.leb_gt _ _)) by (simpl in Hi; lia). reflexivity.
    + simpl. apply store_middle. simpl in Hi. lia.
  - assert (Hsub : Int32.sub idx 1 = idx - 1).
    { apply wrap_in_range. unfold Int32.in_range, Int32.int_min, Int32.int_max in *.
      simpl in Hi. lia. }
    assert (Hload : load (pre ++ reverse (v :: r) ++ h :: tl) (idx - 1) = Done v).
    { rewrite reverse_cons, <- app_assoc, app_assoc. apply load_middle.
      rewrite length_app, length_reverse. simpl in Hi. lia. }
    destruct (val xc <? val v) eqn:E.
    + destruct (IH pre v (v :: tl) xc xstart (idx - 1)) as (x1 & i & [n Hn] & Hst).
      { exact Hs. } { simpl in Hi. lia. } { lia. }
      exists x1, i. split.
      * exists (S n). intros [|fuel] Hf; [lia |]. simpl.
        rewrite (proj2 (Z.leb_le _ _)) by (simpl in Hi; lia).
        rewrite Hsub, Hload. simpl. rewrite E. simpl.
        replace (store _ idx v) with
          (Done (pre ++ reverse r ++ v :: v :: tl)).
        -- simpl. apply Hn. lia.
        -- symmetry.
           replace (pre ++ reverse (v :: r) ++ h :: tl)
             with ((pre ++ reverse r ++ [v]) ++ h :: tl)
             by (rewrite reverse_cons, <- !app_assoc; reflexivity).
           replace (pre ++ reverse r ++ v :: v :: tl)
             with ((pre ++ reverse r ++ [v]) ++ v :: tl)
             by (rewrite <- !app_assoc; reflexivity).
           apply store_middle.
           rewrite !length_app, length_reverse. simpl. simpl in Hi. lia.
      * rewrite Hst. simpl. unfold val_lt at 2. rewrite E.
        rewrite reverse_cons, <- !app_assoc. reflexivity.
    + exists (pre ++ reverse (v :: r) ++ h :: tl), idx. split.
      * exists 1%nat. intros [|fuel] Hf; [lia |]. simpl.
        rewrite (proj2 (Z.leb_le _ _)) by (simpl in Hi; lia).
        rewrite Hsub, Hload. simpl. rewrite E. reflexivity.
      * simpl. unfold val_lt. rewrite E.
        rewrite (reverse_cons _ xc), <- !app_assoc, app_assoc.
        rewrite (app_assoc pre _ ([xc] ++ tl)).
        apply store_middle. rewrite length_app, length_reverse. lia.
Qed.

(** The [for] loop inserts the elements behind the sorted part one by one. *)
Lemma b_insertionsort_for_on_isort u : forall pre s post xstart xend k,
  xstart = Z.of_nat (length pre) + 1 ->
  k = Z.of_nat (length pre + length s) + 1 ->
  xend = Z.of_nat (length pre + length s + length u) ->
  xend < Int32.int_max ->
  returns (fun fuel =>
             b_insertionsort_for_on val fuel (pre ++ s ++ u ++ post) xstart xend k)
          (pre ++ isort_from (val_lt val) s u ++ post).
Proof.
  induction u as [|xc u IH]; intros pre s post xstart xend k Hs Hk He Hmax.
  - exists 1%nat. intros [|fuel] Hf; [lia |]. simpl.
    rewrite (proj2 (Z.leb_gt _ _)) by (simpl in He; lia). reflexivity.
  - assert (Hsub : Int32.sub k 1 = k - 1).
    { apply wrap_in_range.
      unfold Int32.in_range, Int32.int_min, Int32.int_max in *. lia. }
    assert (Hadd : Int32.add k 1 = k + 1).
    { apply wrap_in_range.
      unfold Int32.in_range, Int32.int_min, Int32.int_max in *.
      simpl in He. lia. }
    destruct (b_insertionsort_while_on_place (reverse s) pre xc (u ++ post) xc
                xstart (k - 1)) as (x1 & i & [n1 Hn1] & Hst).
    { exact Hs. } { rewrite length_reverse. lia. }
    { unfold Int32.int_max in *. lia. }
    rewrite reverse_involutive in Hn1.
    destruct (IH pre (insert_last (val_lt val) s xc) post xstart xend (k + 1))
      as [n2 Hn2].
    { exact Hs. } { rewrite length_insert_last. lia. }
    { rewrite length_insert_last. simpl in He. lia. } { exact Hmax. }
    exists (S (n1 `max` n2)). intros [|fuel] Hf; [lia |]. simpl.
    rewrite (proj2 (Z.leb_le _ _)) by (simpl in He; lia).
    rewrite Hsub, Hadd.
    replace (load _ (k - 1)) with (Done xc).
    + simpl. rewrite Hn1 by lia. simpl. rewrite Hst. simpl.
      apply Hn2. lia.
    + symmetry. rewrite app_assoc. apply load_middle.
      rewrite length_app. lia.
Qed.

(** The routine sorts the range and touches nothing else. *)
Lemma b_insertionsort_on_isort pre mid post xstart xend :
  xstart = Z.of_nat (length pre) + 1 ->
  xend = Z.of_nat (length pre + length mid) ->
  xstart < Int32.int_max ->
  xend < Int32.int_max ->
  returns (fun fuel => b_insertionsort_on val fuel (pre ++ mid ++ post) xstart xend)
          (pre ++ isort (val_lt val) mid ++ post).
Proof.
  intros Hs He Hsmax Hmax. unfold b_insertionsort_on.
  assert (Hadd : Int32.add xstart 1 = xstart + 1).
  { apply wrap_in_range.
    unfold Int32.in_range, Int32.int_min, Int32.int_max in *. lia. }
  rewrite Hadd. destruct mid as [|m0 u].
  - exists 1%nat. intros [|fuel] Hf; [lia |]. simpl.
    rewrite (proj2 (Z.leb_gt _ _)) by (simpl in He; lia). reflexivity.
  - unfold isort. rewrite isort_from_cons, insert_last_nil.
    apply (b_insertionsort_for_on_isort u pre [m0] post); simpl in *; lia.
Qed.

End TaggedRefinement.

(** ** Erasing the payload gives back [b_insertionsort] *)

Section Erasure.
Context {T : Type} (val : T -> Z).

Lemma load_fmap (a : list T) (i : Z) :
  load (val <$> a) i = val <$> load a i.
Proof.
  unfold load. destruct (0 <=? i); [| reflexivity].
  rewrite list_lookup_fmap. destruct (a !! Z.to_nat i); reflexivity.
Qed.

Lemma store_fmap (a : list T) (i : Z) (v : T) :
  store (val <$> a) i (val v) = (fun l : list T => val <$> l) <$> store a i v.
Proof.
  unfold store. rewrite length_fmap.
  destruct ((0 <=? i) && (i <? Z.of_nat (length a))); [| reflexivity].
  simpl. rewrite list_fmap_insert. reflexivity.
Qed.

Lemma b_insertionsort_while_erase fuel : forall (x : list T) xstart xc idx,
  b_insertionsort_while fuel (val <$> x) xstart (val xc) idx =
  (fun p : list T * Z => (val <$> p.1, p.2)) <$> b_insertionsort_while_on val fuel x xstart xc idx.
Proof.
  induction fuel as [|fuel IH]; intros x xstart xc idx; [reflexivity |].
  simpl. destruct (xstart <=? idx); [| reflexivity].
  rewrite load_fmap. destruct (load x (Int32.sub idx 1)) as [v| |]; try reflexivity.
  simpl. destruct (val xc <? val v); [| reflexivity].
  simpl. rewrite store_fmap. destruct (store x idx v) as [x'| |]; try reflexivity.
  simpl. apply IH.
Qed.

Lemma b_insertionsort_for_erase fuel : forall (x : list T) xstart xend k,
  b_insertionsort_for fuel (val <$> x) xstart xend k =
  (fun l : list T => val <$> l) <$> b_insertionsort_for_on val fuel x xstart xend k.
Proof.
  induction fuel as [|fuel IH]; intros x xstart xend k; [reflexivity |].
  simpl. destruct (k <=? xend); [| reflexivity].
  rewrite load_fmap. destruct (load x (Int32.sub k 1)) as [xc| |]; try reflexivity.
  simpl. rewrite b_insertionsort_while_erase.
  destruct (b_insertionsort_while_on val fuel x xstart xc (Int32.sub k 1))
    as [[x1 idx]| |]; try reflexivity.
  simpl. rewrite store_fmap. destruct (store x1 idx xc) as [x2| |]; try reflexivity.
  simpl. apply IH.
Qed.

(** Running the plain routine on the values is running the instrumented
    routine and then forgetting the payloads, whatever the outcome. *)
Lemma b_insertionsort_erase fuel (x : list T) xstart xend :
  b_insertionsort fuel (val <$> x) xstart xend =
  (fun l : list T => val <$> l) <$> b_insertionsort_on val fuel x xstart xend.
Proof. apply b_insertionsort_for_erase. Qed.

End Erasure.

Lemma b_insertionsort_on_id fuel x xstart xend :
  b_insertionsort_on (fun v : Z => v) fuel x xstart xend =
  b_insertionsort fuel x xstart xend.
Proof. reflexivity. Qed.

(** The plain routine sorts the range and touches nothing else. *)
Lemma b_insertionsort_isort (pre mid post : list Z) (xstart xend : Z) :
  xstart = Z.of_nat (length pre) + 1 ->
  xend = Z.of_nat (length pre + length mid) ->
  xstart < Int32.int_max ->
  xend < Int32.int_max ->
  returns (fun fuel => b_insertionsort fuel (pre ++ mid ++ post) xstart xend)
          (pre ++ isort Z.ltb mid ++ post).
Proof.
  intros Hs He Hsmax Hmax.
  apply (b_insertionsort_on_isort (fun v : Z => v) pre mid post xstart xend);
    assumption.
Qed.

(** ** [insertionsort] refines the functional insertion sort *)

Lemma load_key (key : list Z) (v : Z) :
  1 <= v <= Z.of_nat (length key) -> load key (v - 1) = Done (key_at key v).
Proof.
  intros H. unfold load, key_at.
  rewrite (proj2 (Z.leb_le _ _)) by lia.
  destruct (lookup_lt_is_Some_2 key (Z.to_nat (v - 1))) as [a ->]; [lia |].
  reflexivity.
Qed.

Section KeyedRefinement.
Variables keyA keyB : list Z.
Implicit Types (pre s u post r tl : list Z) (v w h : Z).

Local Abbreviation mem x := (mk_mem x keyA keyB).

Lemma sub1_key_index v : key_index keyA keyB v -> Int32.sub v 1 = v - 1.
Proof.
  intros (H1 & _ & _ & H2). apply wrap_in_range.
  unfold Int32.in_range, Int32.int_min, Int32.int_max in *. lia.
Qed.

Lemma insertionsort_cmp_key_lt pre w tl v idx :
  idx = Z.of_nat (length pre) ->
  key_index keyA keyB v -> key_index keyA keyB w ->
  insertionsort_cmp (mem (pre ++ w :: tl)) (v - 1) idx = Done (key_lt keyA keyB v w).
Proof.
  intros Hi Hv Hw. unfold insertionsort_cmp, mk_mem. simpl.
  pose proof (sub1_key_index w Hw) as Hsub.
  pose proof (load_middle pre w tl idx Hi) as Hx.
  assert (LAv : load keyA (v - 1) = Done (key_at keyA v))
    by (apply load_key; unfold key_index in *; lia).
  assert (LAw : load keyA (w - 1) = Done (key_at keyA w))
    by (apply load_key; unfold key_index in *; lia).
  assert (LBv : load keyB (v - 1) = Done (key_at keyB v))
    by (apply load_key; unfold key_index in *; lia).
  assert (LBw : load keyB (w - 1) = Done (key_at keyB w))
    by (apply load_key; unfold key_index in *; lia).
  unfold key_lt.
  repeat (progress (rewrite ?LAv, ?LBv, ?Hx, ?Hsub, ?LAw, ?LBw; simpl)).
  destruct (key_at keyA v <? key_at keyA w); [reflexivity |]. simpl.
  destruct (key_at keyA v =? key_at keyA w); [| reflexivity]. simpl.
  repeat (progress (rewrite ?LAv, ?LBv, ?Hx, ?Hsub, ?LAw, ?LBw; simpl)).
  reflexivity.
Qed.

(** The [while] loop and the store behind it put [xc + 1] in its place. *)
Lemma insertionsort_while_place r : forall pre h tl v xstart idx,
  xstart = Z.of_nat (length pre) + 1 ->
  idx = Z.of_nat (length pre + length r) - 1 ->
  idx < Int32.int_max ->
  key_index keyA keyB v -> Forall (key_index keyA keyB) r ->
  exists x1 i,
    returns (fun fuel =>
               insertionsort_while fuel (mem (pre ++ reverse r ++ h :: tl))
                 xstart (v - 1) idx false) (mem x1, i) /\
    store x1 (Int32.add i 1) v =
      Done (pre ++ reverse (shift_in (key_lt keyA keyB) v r) ++ tl).
Proof.
  induction r as [|w r IH]; intros pre h tl v xstart idx Hs Hi Hmax Hv Hr.
  - assert (Hadd : Int32.add idx 1 = idx + 1).
    { apply wrap_in_range.
      unfold Int32.in_range, Int32.int_min, Int32.int_max in *. lia. }
    exists (pre ++ h :: tl), idx. split.
    + exists 1%nat. intros [|fuel] Hf; [lia |]. simpl.
      rewrite Hadd, (proj2 (Z.leb_gt _ _)) by (simpl in Hi; lia). reflexivity.
    + rewrite Hadd. simpl. apply store_middle. simpl in Hi. lia.
  - apply Forall_cons in Hr as [Hw Hr]. simpl in Hi.
    assert (Hadd : Int32.add idx 1 = idx + 1).
    { apply wrap_in_range.
      unfold Int32.in_range, Int32.int_min, Int32.int_max in *. lia. }
    assert (Hsub : Int32.sub idx 1 = idx - 1).
    { apply wrap_in_range.
      unfold Int32.in_range, Int32.int_min, Int32.int_max in *. lia. }
    assert (Harr : pre ++ reverse (w :: r) ++ h :: tl =
                   (pre ++ reverse r) ++ w :: h :: tl).
    { rewrite reverse_cons, <- !app_assoc. reflexivity. }
    assert (Hlen : idx = Z.of_nat (length (pre ++ reverse r))).
    { rewrite length_app, length_reverse. lia. }
    assert (Hcmp : insertionsort_cmp (mem (pre ++ reverse (w :: r) ++ h :: tl))
                     (v - 1) idx = Done (key_lt keyA keyB v w)).
    { rewrite Harr. apply insertionsort_cmp_key_lt; assumption. }
    destruct (key_lt keyA keyB v w) eqn:E.
    + destruct (IH pre w (w :: tl) v xstart (idx - 1)) as (x1 & i & [n Hn] & Hst);
        try assumption; try lia.
      exists x1, i. split.
      * exists (S n). intros [|fuel] Hf; [lia |]. simpl.
        rewrite Hadd, (proj2 (Z.leb_le _ _)) by lia.
        rewrite Hcmp. simpl. rewrite Hsub.
        replace (load _ idx) with (Done w)
          by (symmetry; rewrite Harr; apply load_middle, Hlen).
        simpl.
        replace (store _ (idx + 1) w) with
          (Done (pre ++ reverse r ++ w :: w :: tl)).
        -- simpl. apply Hn. lia.
        -- symmetry.
           replace (pre ++ reverse (w :: r) ++ h :: tl)
             with ((pre ++ reverse r ++ [w]) ++ h :: tl)
             by (rewrite reverse_cons, <- !app_assoc; reflexivity).
           replace (pre ++ reverse r ++ w :: w :: tl)
             with ((pre ++ reverse r ++ [w]) ++ w :: tl)
             by (rewrite <- !app_assoc; reflexivity).
           apply store_middle.
           rewrite !length_app, length_reverse. simpl. lia.
      * rewrite Hst. simpl. rewrite E.
        rewrite reverse_cons, <- !app_assoc. reflexivity.
    + exists (pre ++ reverse (w :: r) ++ h :: tl), idx. split.
      * exists 2%nat. intros [|[|fuel]] Hf; [lia | lia |]. simpl.
        rewrite Hadd, (proj2 (Z.leb_le _ _)) by lia.
        rewrite Hcmp. reflexivity.
      * rewrite Hadd. simpl. rewrite E.
        rewrite (reverse_cons _ v), <- !app_assoc, app_assoc.
        rewrite (app_assoc pre _ ([v] ++ tl)).
        apply store_middle. rewrite length_app, length_reverse. simpl. lia.
Qed.

Lemma insert_last_key_index s v :
  Forall (key_index keyA keyB) s -> key_index keyA keyB v ->
  Forall (key_index keyA keyB) (insert_last (key_lt keyA keyB) s v).
Proof.
  intros Hs Hv. rewrite insert_last_perm.
  apply Forall_app. split; [exact Hs | apply Forall_singleton; exact Hv].
Qed.

(** The [for] loop inserts the elements behind the sorted part one by one. *)
Lemma insertionsort_for_isort u : forall pre s post xstart xend k,
  xstart = Z.of_nat (length pre) + 1 ->
  k = Z.of_nat (length pre + length s) + 1 ->
  xend = Z.of_nat (length pre + length s + length u) ->
  xend < Int32.int_max ->
  Forall (key_index keyA keyB) s -> Forall (key_index keyA keyB) u ->
  returns (fun fuel =>
             insertionsort_for fuel (mem (pre ++ s ++ u ++ post)) xstart xend k)
          (mem (pre ++ isort_from (key_lt keyA keyB) s u ++ post)).
Proof.
  induction u as [|v u IH]; intros pre s post xstart xend k Hs Hk He Hmax Fs Fu.
  - exists 1%nat. intros [|fuel] Hf; [lia |]. simpl.
    rewrite (proj2 (Z.leb_gt _ _)) by (simpl in He; lia). reflexivity.
  - apply Forall_cons in Fu as [Hv Fu]. simpl in He.
    assert (Hsub : Int32.sub k 1 = k - 1).
    { apply wrap_in_range.
      unfold Int32.in_range, Int32.int_min, Int32.int_max in *. lia. }
    assert (Hsub2 : Int32.sub k 2 = k - 2).
    { apply wrap_in_range.
      unfold Int32.in_range, Int32.int_min, Int32.int_max in *. lia. }
    assert (Hadd : Int32.add k 1 = k + 1).
    { apply wrap_in_range.
      unfold Int32.in_range, Int32.int_min, Int32.int_max in *. lia. }
    assert (Hxc : Int32.add (v - 1) 1 = v).
    { destruct Hv as (? & _ & _ & ?). unfold Int32.add.
      replace (v - 1 + 1) with v by lia. apply wrap_in_range.
      unfold Int32.in_range, Int32.int_min, Int32.int_max in *. lia. }
    destruct (insertionsort_while_place (reverse s) pre v (u ++ post) v
                xstart (k - 2)) as (x1 & i & [n1 Hn1] & Hst);
      try assumption.
    { rewrite length_reverse. lia. }
    { unfold Int32.int_max in *. lia. }
    { apply Forall_reverse. exact Fs. }
    rewrite reverse_involutive in Hn1.
    destruct (IH pre (insert_last (key_lt keyA keyB) s v) post xstart xend (k + 1))
      as [n2 Hn2]; try assumption.
    { rewrite length_insert_last. lia. }
    { rewrite length_insert_last. lia. }
    { apply insert_last_key_index; assumption. }
    exists (S (n1 `max` n2)). intros [|fuel] Hf; [lia |]. simpl.
    rewrite (proj2 (Z.leb_le _ _)) by lia.
    rewrite Hsub, Hsub2, Hadd.
    replace (load _ (k - 1)) with (Done v).
    + simpl. rewrite (sub1_key_index v Hv), Hn1 by lia. simpl.
      rewrite Hxc, Hst. simpl. apply Hn2. lia.
    + symmetry. rewrite app_assoc. apply load_middle.
      rewrite length_app. lia.
Qed.

(** The routine sorts the range by the two keys and touches nothing else. *)
Lemma insertionsort_isort pre mid post xstart xend :
  xstart = Z.of_nat (length pre) + 1 ->
  xend = Z.of_nat (length pre + length mid) ->
  xstart < Int32.int_max ->
  xend < Int32.int_max ->
  Forall (key_index keyA keyB) mid ->
  returns (fun fuel => insertionsort fuel (mem (pre ++ mid ++ post)) xstart xend)
          (mem (pre ++ isort (key_lt keyA keyB) mid ++ post)).
Proof.
  intros Hs He Hsmax Hmax Fm. unfold insertionsort.
  assert (Hadd : Int32.add xstart 1 = xstart + 1).
  { apply wrap_in_range.
    unfold Int32.in_range, Int32.int_min, Int32.int_max in *. lia. }
  rewrite Hadd. destruct mid as [|m0 u].
  - exists 1%nat. intros [|fuel] Hf; [lia |]. simpl.
    rewrite (proj2 (Z.leb_gt _ _)) by (simpl in He; lia). reflexivity.
  - unfold isort. rewrite isort_from_cons, insert_last_nil.
    apply Forall_cons in Fm as [Hm Fm].
    apply (insertionsort_for_isort u pre [m0] post); simpl in *;
      try lia; try assumption.
    apply Forall_singleton. exact Hm.
Qed.

End KeyedRefinement.

(** ** More budget never changes an outcome that is not [Timeout] *)

Lemma fuel_stable_le {A : Type} (run : nat -> outcome A) :
  fuel_stable run ->
  forall fuel fuel', (fuel <= fuel')%nat -> run fuel <> Timeout -> run fuel' = run fuel.
Proof.
  intros Hst fuel fuel' Hle Hnt. induction Hle as [|fuel' Hle IH]; [reflexivity |].
  rewrite Hst; [exact IH | rewrite IH; exact Hnt].
Qed.

(** A run that returns with a large budget cannot fault with a small one. *)
Lemma returns_no_fault {A : Type} (run : nat -> outcome A) (a : A) :
  fuel_stable run -> returns run a -> forall fuel, run fuel <> Fault.
Proof.
  intros Hst [n Hn] fuel Hf.
  pose proof (fuel_stable_le run Hst fuel (fuel `max` n)%nat ltac:(lia)) as H.
  rewrite (Hn (fuel `max` n)%nat), Hf in H by lia.
  specialize (H ltac:(discriminate)). discriminate.
Qed.

Lemma insertionsort_while_S fuel m xstart xc idx exitg1 :
  insertionsort_while (S fuel) m xstart xc idx exitg1 =
  if negb exitg1 && (xstart <=? Int32.add idx 1) then
    varargout_1 ← insertionsort_cmp m xc idx;
    if (varargout_1 : bool) then
      v ← load (x_data m) idx;
      x' ← store (x_data m) (Int32.add idx 1) v;
      insertionsort_while fuel (set_x m x') xstart xc (Int32.sub idx 1) exitg1
    else insertionsort_while fuel m xstart xc idx true
  else Done (m, idx).
Proof. reflexivity. Qed.

Lemma insertionsort_for_S fuel m xstart xend k :
  insertionsort_for (S fuel) m xstart xend k =
  if k <=? xend then
    v ← load (x_data m) (Int32.sub k 1);
    let xc := Int32.sub v 1 in
    '(m1, idx) ← insertionsort_while fuel m xstart xc (Int32.sub k 2) false;
    x2 ← store (x_data m1) (Int32.add idx 1) (Int32.add xc 1);
    insertionsort_for fuel (set_x m1 x2) xstart xend (Int32.add k 1)
  else Done m.
Proof. reflexivity. Qed.

Lemma insertionsort_while_stable m xstart xc idx exitg1 :
  fuel_stable (fun fuel => insertionsort_while fuel m xstart xc idx exitg1).
Proof.
  intros fuel. revert m idx exitg1.
  induction fuel as [|fuel IH]; intros m idx exitg1 H; [contradiction H; reflexivity |].
  rewrite (insertionsort_while_S fuel) in H |- *.
  rewrite (insertionsort_while_S (S fuel)).
  destruct (negb exitg1 && (xstart <=? Int32.add idx 1)); [| reflexivity].
  destruct (insertionsort_cmp m xc idx) as [[|]| |]; try reflexivity.
  - cbn [mbind outcome_bind] in H |- *. destruct (load (x_data m) idx) as [v| |]; try reflexivity.
    cbn [mbind outcome_bind] in H |- *. destruct (store (x_data m) (Int32.add idx 1) v) as [x'| |];
      try reflexivity.
    apply IH, H.
  - apply IH, H.
Qed.

Lemma insertionsort_for_stable m xstart xend k :
  fuel_stable (fun fuel => insertionsort_for fuel m xstart xend k).
Proof.
  intros fuel. revert m k.
  induction fuel as [|fuel IH]; intros m k H; [contradiction H; reflexivity |].
  rewrite (insertionsort_for_S fuel) in H |- *.
  rewrite (insertionsort_for_S (S fuel)).
  destruct (k <=? xend); [| reflexivity].
  destruct (load (x_data m) (Int32.sub k 1)) as [v| |]; try reflexivity.
  cbn [mbind outcome_bind] in H |- *.
  rewrite (insertionsort_while_stable m xstart (Int32.sub v 1) (Int32.sub k 2)
             false fuel).
  - destruct (insertionsort_while fuel m xstart (Int32.sub v 1) (Int32.sub k 2) false)
      as [[m1 idx]| |]; try reflexivity.
    cbn [mbind outcome_bind] in H |- *.
    destruct (store (x_data m1) (Int32.add idx 1) (Int32.add (Int32.sub v 1) 1))
      as [x2| |]; try reflexivity.
    apply IH, H.
  - intros E. rewrite E in H. apply H. reflexivity.
Qed.

Lemma insertionsort_stable m xstart xend :
  fuel_stable (fun fuel => insertionsort fuel m xstart xend).
Proof. apply insertionsort_for_stable. Qed.

(** ** Order facts *)

Lemma StronglySorted_impl {A : Type} (R R' : A -> A -> Prop) (l : list A) :
  (forall a b, R a b -> R' a b) -> StronglySorted R l -> StronglySorted R' l.
Proof.
  intros HR. induction 1 as [|a l _ IH Ha]; constructor; [exact IH |].
  eapply Forall_impl; [exact Ha | apply HR].
Qed.

Lemma StronglySorted_lookup {A : Type} (R : A -> A -> Prop) (l : list A) :
  StronglySorted R l ->
  forall i j a b, (i < j)%nat -> l !! i = Some a -> l !! j = Some b -> R a b.
Proof.
  induction 1 as [|c l _ IH Hc]; intros i j a b Hij Hi Hj; [discriminate |].
  destruct j as [|j]; [lia |]. simpl in Hj. destruct i as [|i].
  - injection Hi as <-. rewrite Forall_forall in Hc.
    apply Hc. eapply list_elem_of_lookup_2, Hj.
  - simpl in Hi. apply (IH i j); [lia | assumption | assumption].
Qed.

Lemma val_lt_asym {T : Type} (val : T -> Z) (a b : T) :
  val_lt val a b = true -> val_lt val b a = false.
Proof. unfold val_lt. lia. Qed.

Lemma val_le_trans {T : Type} (val : T -> Z) (a b c : T) :
  ord_le (val_lt val) a b -> ord_le (val_lt val) b c -> ord_le (val_lt val) a c.
Proof. unfold ord_le, val_lt. lia. Qed.

(** When the comparator does not put [w] before [v], the keys of [v] are
    lexicographically at most those of [w]. *)
Lemma key_le_iff keyA keyB v w :
  ord_le (key_lt keyA keyB) v w <->
  key_at keyA v < key_at keyA w \/
  (key_at keyA v = key_at keyA w /\ key_at keyB v <= key_at keyB w).
Proof. unfold ord_le, key_lt. lia. Qed.

Lemma key_lt_asym keyA keyB v w :
  key_lt keyA keyB v w = true -> key_lt keyA keyB w v = false.
Proof. unfold key_lt. lia. Qed.

Lemma key_le_trans keyA keyB a b c :
  ord_le (key_lt keyA keyB) a b -> ord_le (key_lt keyA keyB) b c ->
  ord_le (key_lt keyA keyB) a c.
Proof. rewrite !key_le_iff. lia. Qed.

(** ** What a call does to the array *)

(** A call of [b_insertionsort] on a range within the array replaces the
    range by its functional insertion sort; the instrumented routine is
    covered by the same statement. *)
Lemma b_insertionsort_on_call {T : Type} (val : T -> Z) (x : list T) xstart xend :
  1 <= xstart -> xstart <= xend + 1 -> xstart < Int32.int_max ->
  xend <= Z.of_nat (length x) -> xend < Int32.int_max ->
  exists x',
    returns (fun fuel => b_insertionsort_on val fuel x xstart xend) x' /\
    before x' xstart = before x xstart /\
    range x' xstart xend = isort (val_lt val) (range x xstart xend) /\
    after x' xend = after x xend.
Proof.
  intros H1 H2 H0 H3 H4.
  destruct (range_split x xstart xend) as (Hx & Hpre & Hmid); try lia.
  pose proof (b_insertionsort_on_isort val (before x xstart)
                (range x xstart xend) (after x xend) xstart xend) as Hrun.
  rewrite <- Hx in Hrun.
  eexists. split.
  - apply Hrun; unfold Int32.int_max in *; lia.
  - destruct (range_middle (before x xstart)
                  (isort (val_lt val) (range x xstart xend)) (after x xend)
                  xstart xend) as (Hr & Hb & Ha); [lia | | auto].
    unfold isort. rewrite length_isort_from. simpl. lia.
Qed.

Lemma insertionsort_call (x keyA keyB : list Z) xstart xend :
  1 <= xstart -> xstart <= xend + 1 -> xstart < Int32.int_max ->
  xend <= Z.of_nat (length x) -> xend < Int32.int_max ->
  Forall (key_index keyA keyB) (range x xstart xend) ->
  exists x',
    returns (fun fuel => insertionsort fuel (mk_mem x keyA keyB) xstart xend)
            (mk_mem x' keyA keyB) /\
    before x' xstart = before x xstart /\
    range x' xstart xend = isort (key_lt keyA keyB) (range x xstart xend) /\
    after x' xend = after x xend.
Proof.
  intros H1 H2 H0 H3 H4 HF.
  destruct (range_split x xstart xend) as (Hx & Hpre & Hmid); try lia.
  pose proof (insertionsort_isort keyA keyB (before x xstart)
                (range x xstart xend) (after x xend) xstart xend) as Hrun.
  rewrite <- Hx in Hrun.
  eexists. split.
  - apply Hrun; try assumption; unfold Int32.int_max in *; lia.
  - destruct (range_middle (before x xstart)
                  (isort (key_lt keyA keyB) (range x xstart xend)) (after x xend)
                  xstart xend) as (Hr & Hb & Ha); [lia | | auto].
    unfold isort. rewrite length_isort_from. simpl. lia.
Qed.

(** ** The sort routines: main results *)

(** C1.  [b_insertionsort] on a range [xstart .. xend] within the array
    returns, and leaves the range in ascending order and a permutation of
    the elements that occupied it before the call.  Indices are [int]s, so
    the last position has to be below [INT_MAX] for [k++] to stay defined. *)
Theorem b_insertionsort_sorts_range (x : list Z) (xstart xend : Z) :
  1 <= xstart -> xstart <= xend -> xend <= Z.of_nat (length x) ->
  xend < Int32.int_max ->
  exists x',
    returns (fun fuel => b_insertionsort fuel x xstart xend) x' /\
    StronglySorted Z.le (range x' xstart xend) /\
    range x' xstart xend ≡ₚ range x xstart xend.
Proof.
  intros H1 H2 H3 H4.
  destruct (b_insertionsort_on_call (fun v : Z => v) x xstart xend)
    as (x' & Hrun & _ & Hr & _); try lia.
  exists x'. split; [exact Hrun |]. rewrite Hr. split.
  - apply StronglySorted_impl with (ord_le (val_lt (fun v : Z => v))).
    + unfold ord_le, val_lt. lia.
    + apply isort_StronglySorted; [apply val_lt_asym | apply val_le_trans].
  - apply (isort_from_perm _ []).
Qed.

Lemma b_insertionsort_sorts_range_witness :
  exists x',
    returns (fun fuel => b_insertionsort fuel [5; 3; 9; 1; 3; 7] 2 5) x' /\
    StronglySorted Z.le (range x' 2 5) /\
    range x' 2 5 ≡ₚ range [5; 3; 9; 1; 3; 7] 2 5.
Proof.
  apply (b_insertionsort_sorts_range [5; 3; 9; 1; 3; 7] 2 5);
    [lia | lia | simpl; lia | unfold Int32.int_max; lia].
Defined.

(** C2.  [insertionsort] on a range of 1-based indices into the two
    comparison vectors returns; the range then holds a permutation of the
    indices it held, and for any two positions [i] before [j] of the range
    the entry at [i] has the smaller first key, or the same first key and a
    second key that is not larger. *)
Theorem insertionsort_orders_by_keys (x keyA keyB : list Z) (xstart xend : Z) :
  1 <= xstart -> xstart <= xend -> xend <= Z.of_nat (length x) ->
  xend < Int32.int_max ->
  Forall (key_index keyA keyB) (range x xstart xend) ->
  exists x',
    returns (fun fuel => insertionsort fuel (mk_mem x keyA keyB) xstart xend)
            (mk_mem x' keyA keyB) /\
    range x' xstart xend ≡ₚ range x xstart xend /\
    forall i j,
      xstart <= i -> i < j -> j <= xend ->
      exists vi vj,
        x' !! Z.to_nat (i - 1) = Some vi /\ x' !! Z.to_nat (j - 1) = Some vj /\
        key_index keyA keyB vi /\ key_index keyA keyB vj /\
        (key_at keyA vi < key_at keyA vj \/
         (key_at keyA vi = key_at keyA vj /\ key_at keyB vi <= key_at keyB vj)).
Proof.
  intros H1 H2 H3 H4 HF.
  destruct (insertionsort_call x keyA keyB xstart xend)
    as (x' & Hrun & _ & Hr & _); try lia; try assumption.
  exists x'. split; [exact Hrun |].
  assert (Hperm : range x' xstart xend ≡ₚ range x xstart xend).
  { rewrite Hr. unfold isort. apply isort_from_perm. }
  split; [exact Hperm |].
  assert (Hlen : length (range x' xstart xend) = Z.to_nat (xend + 1 - xstart)).
  { rewrite (Permutation_length Hperm). unfold range.
    rewrite length_take, length_drop. lia. }
  assert (Hat : forall p, xstart <= p <= xend ->
                  exists v, x' !! Z.to_nat (p - 1) = Some v /\
                            range x' xstart xend !! Z.to_nat (p - xstart) = Some v).
  { intros p Hp.
    destruct (lookup_lt_is_Some_2 (range x' xstart xend) (Z.to_nat (p - xstart)))
      as [v Hv]; [lia |].
    exists v. split; [| exact Hv].
    unfold range in Hv. rewrite lookup_take_lt, lookup_drop in Hv by lia.
    rewrite <- Hv. f_equal. lia. }
  assert (HF' : Forall (key_index keyA keyB) (range x' xstart xend)).
  { rewrite Hperm. exact HF. }
  rewrite Forall_forall in HF'.
  intros i j Hi Hij Hj.
  destruct (Hat i ltac:(lia)) as (vi & Li & Ri).
  destruct (Hat j ltac:(lia)) as (vj & Lj & Rj).
  exists vi, vj.
  split; [exact Li |]. split; [exact Lj |].
  split; [eapply HF', list_elem_of_lookup_2, Ri |].
  split; [eapply HF', list_elem_of_lookup_2, Rj |].
  apply key_le_iff.
  apply (StronglySorted_lookup (ord_le (key_lt keyA keyB)) (range x' xstart xend))
    with (i := Z.to_nat (i - xstart)) (j := Z.to_nat (j - xstart));
    [| lia | exact Ri | exact Rj].
  rewrite Hr. apply isort_StronglySorted; [apply key_lt_asym | apply key_le_trans].
Qed.

Lemma insertionsort_orders_by_keys_witness :
  exists x',
    returns (fun fuel =>
               insertionsort fuel (mk_mem [3; 1; 2; 4] [7; 7; 5; 7] [2; 1; 0; 1]) 1 4)
            (mk_mem x' [7; 7; 5; 7] [2; 1; 0; 1]) /\
    range x' 1 4 ≡ₚ range [3; 1; 2; 4] 1 4 /\
    forall i j,
      1 <= i -> i < j -> j <= 4 ->
      exists vi vj,
        x' !! Z.to_nat (i - 1) = Some vi /\ x' !! Z.to_nat (j - 1) = Some vj /\
        key_index [7; 7; 5; 7] [2; 1; 0; 1] vi /\
        key_index [7; 7; 5; 7] [2; 1; 0; 1] vj /\
        (key_at [7; 7; 5; 7] vi < key_at [7; 7; 5; 7] vj \/
         (key_at [7; 7; 5; 7] vi = key_at [7; 7; 5; 7] vj /\
          key_at [2; 1; 0; 1] vi <= key_at [2; 1; 0; 1] vj)).
Proof.
  apply (insertionsort_orders_by_keys [3; 1; 2; 4] [7; 7; 5; 7] [2; 1; 0; 1] 1 4);
    [lia | lia | simpl; lia | unfold Int32.int_max; lia |].
  repeat constructor; unfold Int32.int_max; simpl; lia.
Defined.

(** C3.  Both routines are stable.  For [b_insertionsort], run on elements
    that pair each integer with a tag: the instrumented run returns, its
    values are what the plain run returns, and the elements of any one
    value keep their order.  For [insertionsort], the indices whose two
    keys are the same keep their order. *)
Theorem insertion_sorts_stable :
  (forall (T : Type) (xt : list (Z * T)) (xstart xend : Z),
      1 <= xstart -> xstart <= xend -> xend <= Z.of_nat (length xt) ->
      xend < Int32.int_max ->
      exists xt',
        returns (fun fuel => b_insertionsort_on fst fuel xt xstart xend) xt' /\
        returns (fun fuel => b_insertionsort fuel xt.*1 xstart xend) xt'.*1 /\
        forall v : Z,
          filter (fun e => e.1 = v) (range xt' xstart xend) =
          filter (fun e => e.1 = v) (range xt xstart xend)) /\
  (forall (x keyA keyB : list Z) (xstart xend : Z),
      1 <= xstart -> xstart <= xend -> xend <= Z.of_nat (length x) ->
      xend < Int32.int_max ->
      Forall (key_index keyA keyB) (range x xstart xend) ->
      exists x',
        returns (fun fuel => insertionsort fuel (mk_mem x keyA keyB) xstart xend)
                (mk_mem x' keyA keyB) /\
        forall a b : Z,
          filter (fun v => key_at keyA v = a /\ key_at keyB v = b)
                 (range x' xstart xend) =
          filter (fun v => key_at keyA v = a /\ key_at keyB v = b)
                 (range x xstart xend)).
Proof.
  split.
  - intros T xt xstart xend H1 H2 H3 H4.
    destruct (b_insertionsort_on_call fst xt xstart xend)
      as (xt' & Hrun & _ & Hr & _); try lia.
    exists xt'. split; [exact Hrun |]. split.
    + destruct Hrun as [n Hn]. exists n. intros fuel Hf.
      rewrite b_insertionsort_erase, Hn by exact Hf. reflexivity.
    + intros v. rewrite Hr. apply (isort_from_filter _ _ []).
      intros a b Ha Hb. unfold val_lt. lia.
  - intros x keyA keyB xstart xend H1 H2 H3 H4 HF.
    destruct (insertionsort_call x keyA keyB xstart xend)
      as (x' & Hrun & _ & Hr & _); try lia; try assumption.
    exists x'. split; [exact Hrun |].
    intros a b. rewrite Hr. apply (isort_from_filter _ _ []).
    intros v w [Hv1 Hv2] [Hw1 Hw2]. unfold key_lt. lia.
Qed.

Lemma insertion_sorts_stable_witness :
  (exists xt',
      returns (fun fuel =>
                 b_insertionsort_on fst fuel [(2, true); (1, true); (2, false); (1, false)]
                   1 4) xt' /\
      returns (fun fuel => b_insertionsort fuel [2; 1; 2; 1] 1 4) xt'.*1 /\
      forall v : Z,
        filter (fun e => e.1 = v) (range xt' 1 4) =
        filter (fun e => e.1 = v)
               (range [(2, true); (1, true); (2, false); (1, false)] 1 4)) /\
  (exists x',
      returns (fun fuel =>
                 insertionsort fuel (mk_mem [3; 1; 2; 4] [7; 7; 5; 7] [2; 1; 0; 1]) 1 4)
              (mk_mem x' [7; 7; 5; 7] [2; 1; 0; 1]) /\
      forall a b : Z,
        filter (fun v => key_at [7; 7; 5; 7] v = a /\ key_at [2; 1; 0; 1] v = b)
               (range x' 1 4) =
        filter (fun v => key_at [7; 7; 5; 7] v = a /\ key_at [2; 1; 0; 1] v = b)
               (range [3; 1; 2; 4] 1 4)).
Proof.
  split.
  - apply (proj1 insertion_sorts_stable bool
             [(2, true); (1, true); (2, false); (1, false)] 1 4);
      [lia | lia | simpl; lia | unfold Int32.int_max; lia].
  - apply (proj2 insertion_sorts_stable [3; 1; 2; 4] [7; 7; 5; 7] [2; 1; 0; 1] 1 4);
      [lia | lia | simpl; lia | unfold Int32.int_max; lia |].
    repeat constructor; unfold Int32.int_max; simpl; lia.
Defined.

(** C4.  [b_insertionsort] on a range that is already in ascending order
    returns the array as it was. *)
Theorem b_insertionsort_idempotent (x : list Z) (xstart xend : Z) :
  1 <= xstart -> xstart <= xend -> xend <= Z.of_nat (length x) ->
  xend < Int32.int_max ->
  Sorted Z.le (range x xstart xend) ->
  returns (fun fuel => b_insertionsort fuel x xstart xend) x.
Proof.
  intros H1 H2 H3 H4 Hs.
  destruct (range_split x xstart xend) as (Hx & Hpre & Hmid); try lia.
  pose proof (b_insertionsort_isort (before x xstart) (range x xstart xend)
                (after x xend) xstart xend) as Hrun.
  unfold isort in Hrun. rewrite isort_from_sorted in Hrun.
  - rewrite app_nil_l, <- Hx in Hrun. apply Hrun; unfold Int32.int_max in *; lia.
  - simpl. apply StronglySorted_impl with Z.le.
    + unfold ord_le. lia.
    + apply Sorted_StronglySorted; [| exact Hs]. intros a b c. lia.
Qed.

Lemma b_insertionsort_idempotent_witness :
  returns (fun fuel => b_insertionsort fuel [9; 1; 3; 3; 8; 0] 2 5) [9; 1; 3; 3; 8; 0].
Proof.
  apply (b_insertionsort_idempotent [9; 1; 3; 3; 8; 0] 2 5);
    [lia | lia | simpl; lia | unfold Int32.int_max; lia |].
  repeat constructor; lia.
Defined.

(** C10.  When every entry of the range is an [int] between 1 and the
    length of each comparison vector, [insertionsort] never leaves the bounds
    of [x] or of the comparison vectors, whatever the budget; it returns,
    and the comparison vectors are as they were.  The range may be empty
    ([xend = xstart - 1]). *)
Theorem insertionsort_in_bounds (x keyA keyB : list Z) (xstart xend : Z) :
  1 <= xstart -> xstart <= xend + 1 -> xstart < Int32.int_max ->
  xend <= Z.of_nat (length x) -> xend < Int32.int_max ->
  Forall Int32.in_range (range x xstart xend) ->
  Forall (fun v => 1 <= v <= Z.of_nat (length keyA) /\
                   1 <= v <= Z.of_nat (length keyB)) (range x xstart xend) ->
  (forall fuel, insertionsort fuel (mk_mem x keyA keyB) xstart xend <> Fault) /\
  exists m',
    returns (fun fuel => insertionsort fuel (mk_mem x keyA keyB) xstart xend) m' /\
    f1 (env0 m') = keyA /\ f1 (env1 m') = keyB.
Proof.
  intros H1 H2 H0 H3 H4 Hint Hkey.
  assert (HF : Forall (key_index keyA keyB) (range x xstart xend)).
  { rewrite Forall_forall in Hint, Hkey |- *. intros v Hv.
    specialize (Hint v Hv). specialize (Hkey v Hv).
    unfold key_index, Int32.in_range in *. lia. }
  destruct (insertionsort_call x keyA keyB xstart xend)
    as (x' & Hrun & _); try assumption.
  split.
  - apply returns_no_fault with (mk_mem x' keyA keyB);
      [apply insertionsort_stable | exact Hrun].
  - exists (mk_mem x' keyA keyB). split; [exact Hrun | split; reflexivity].
Qed.

Lemma insertionsort_in_bounds_witness :
  (forall fuel,
      insertionsort fuel (mk_mem [3; 1; 2; 4] [7; 7; 5; 7] [2; 1; 0; 1]) 1 4 <> Fault) /\
  exists m',
    returns (fun fuel =>
               insertionsort fuel (mk_mem [3; 1; 2; 4] [7; 7; 5; 7] [2; 1; 0; 1]) 1 4) m' /\
    f1 (env0 m') = [7; 7; 5; 7] /\ f1 (env1 m') = [2; 1; 0; 1].
Proof.
  apply (insertionsort_in_bounds [3; 1; 2; 4] [7; 7; 5; 7] [2; 1; 0; 1] 1 4);
    [lia | lia | unfold Int32.int_max; lia | simpl; lia | unfold Int32.int_max; lia
    | repeat constructor; unfold Int32.int_min, Int32.int_max; simpl; lia
    | repeat constructor; simpl; lia].
Defined.

Example vertcat_example :
  sparse_vertcat
    {| d := [1; 3; 2; 4]; colidx := [0; 2; 4]; rowidx := [0; 2; 1; 2]; m := 3; n := 2 |}
    {| d := [7; 8]; colidx := [0; 1; 2]; rowidx := [0; 0]; m := 1; n := 2 |}
  = Ok {| d := [1; 3; 7; 2; 4; 8]; colidx := [0; 3; 6];
          rowidx := [0; 2; 3; 1; 2; 3]; m := 4; n := 2 |}.
Proof. reflexivity. Qed.

(** ** Facts on slices and on columns laid end to end *)

Section SliceFacts.
Context {A : Type}.
Implicit Types (l k : list A).

Lemma length_slice l lo hi :
  length (slice l lo hi) = ((hi - lo) `min` (length l - lo))%nat.
Proof. unfold slice. rewrite length_take, length_drop. reflexivity. Qed.

Lemma slice_middle l k k' lo hi :
  lo = length l -> hi = (length l + length k)%nat ->
  slice (l ++ k ++ k') lo hi = k.
Proof.
  intros -> ->. unfold slice. rewrite drop_app_length.
  replace (length l + length k - length l)%nat with (length k) by lia.
  apply take_app_length.
Qed.

Lemma take_slice l lo hi :
  (lo <= hi)%nat -> take lo l ++ slice l lo hi = take hi l.
Proof.
  intros H. unfold slice. rewrite take_take_drop. f_equal. lia.
Qed.

Lemma Forall_slice (P : A -> Prop) l lo hi :
  Forall P l -> Forall P (slice l lo hi).
Proof. intros H. apply Forall_take, Forall_drop, H. Qed.

Lemma slice_ext l l' lo hi :
  (forall i, (lo <= i < hi)%nat -> l' !! i = l !! i) ->
  slice l' lo hi = slice l lo hi.
Proof.
  intros H. apply list_eq. intros i. unfold slice.
  rewrite !lookup_take, !lookup_drop.
  case_decide; [apply H; lia | reflexivity].
Qed.

Lemma flat_map_seq_S (f : nat -> list A) j :
  flat_map f (seq 0 (S j)) = flat_map f (seq 0 j) ++ f j.
Proof. rewrite seq_S, flat_map_app. simpl. rewrite app_nil_r. reflexivity. Qed.

Lemma flat_map_seq_split (f : nat -> list A) N j :
  (j < N)%nat ->
  flat_map f (seq 0 N) =
  flat_map f (seq 0 j) ++ f j ++ flat_map f (seq (S j) (N - S j)).
Proof.
  intros H. replace N with (S j + (N - S j))%nat at 1 by lia.
  rewrite seq_app, flat_map_app, flat_map_seq_S, <- app_assoc. reflexivity.
Qed.

(** Pointers that count the entries of the columns in front select, from
    the columns laid end to end, exactly one column. *)
Lemma slice_flat_map (f : nat -> list A) N j :
  (j < N)%nat ->
  slice (flat_map f (seq 0 N))
        (length (flat_map f (seq 0 j))) (length (flat_map f (seq 0 (S j)))) = f j.
Proof.
  intros H. rewrite (flat_map_seq_split f N j H).
  apply slice_middle; [reflexivity |].
  rewrite flat_map_seq_S, length_app. reflexivity.
Qed.

End SliceFacts.

Lemma length_flat_map_eq {I A B : Type} (f : I -> list A) (g : I -> list B)
    (l : list I) :
  (forall j, length (g j) = length (f j)) ->
  length (flat_map g l) = length (flat_map f l).
Proof.
  intros H. induction l as [|j l IH]; [reflexivity |].
  simpl. rewrite !length_app, H, IH. reflexivity.
Qed.

Lemma length_flat_map_app {I A : Type} (f g : I -> list A) (l : list I) :
  length (flat_map (fun j => f j ++ g j) l) =
  (length (flat_map f l) + length (flat_map g l))%nat.
Proof.
  induction l as [|j l IH]; [reflexivity |].
  simpl. rewrite !length_app, IH. lia.
Qed.

Section SparseFacts.
Context {V : Type}.
Implicit Types (A top bottom c : coder_internal_sparse V).

Lemma length_col_vals A j :
  length (d A) = length (rowidx A) ->
  length (col_vals A j) = length (col_rows A j).
Proof. intros H. unfold col_vals, col_rows. rewrite !length_slice, H. reflexivity. Qed.

(** The columns in front of column [j], laid end to end, are the first
    [colidx[j]] stored entries. *)
Lemma cols_take_vals A j :
  csc_shape A -> (j <= num_cols A)%nat ->
  flat_map (col_vals A) (seq 0 j) = take (col_ptr A j) (d A).
Proof.
  intros HA. induction j as [|j IH]; intros Hj.
  - rewrite (shape_first A HA). reflexivity.
  - rewrite flat_map_seq_S, IH by lia. apply take_slice.
    apply (shape_mono A HA). lia.
Qed.

Lemma cols_all_vals A :
  csc_shape A -> flat_map (col_vals A) (seq 0 (num_cols A)) = d A.
Proof.
  intros HA. rewrite cols_take_vals by (auto; lia).
  apply take_ge. rewrite (shape_last A HA), (shape_d A HA). lia.
Qed.

Lemma col_ptr_mono A j k :
  csc_shape A -> (j <= k)%nat -> (k <= num_cols A)%nat ->
  (col_ptr A j <= col_ptr A k)%nat.
Proof.
  intros HA. induction k as [|k IH]; intros Hjk Hk.
  - replace j with 0%nat by lia. lia.
  - destruct (decide (j = S k)) as [-> | Hne]; [lia |].
    etransitivity; [apply IH; lia |]. apply (shape_mono A HA). lia.
Qed.

Lemma col_ptr_bound A j :
  csc_shape A -> (j <= num_cols A)%nat -> (col_ptr A j <= length (rowidx A))%nat.
Proof.
  intros HA Hj. rewrite <- (shape_last A HA). apply col_ptr_mono; auto.
Qed.

(** What a successful concatenation returns, field by field. *)
Lemma sparse_vertcat_Ok top bottom c :
  sparse_vertcat top bottom = Ok c ->
  n top = n bottom /\
  d c = flat_map (vertcat_vals top bottom) (seq 0 (num_cols top)) /\
  colidx c =
    ((fun j => Z.of_nat (length (flat_map (vertcat_rows top bottom) (seq 0 j))))
       <$> seq 0 (S (num_cols top))) /\
  rowidx c = flat_map (vertcat_rows top bottom) (seq 0 (num_cols top)) /\
  m c = m top + m bottom /\
  n c = n top.
Proof.
  unfold sparse_vertcat. destruct (n top =? n bottom) eqn:E; [| discriminate].
  intros [= <-]. repeat split. lia.
Qed.

Lemma sparse_vertcat_returns top bottom :
  n top = n bottom -> exists c, sparse_vertcat top bottom = Ok c.
Proof.
  intros Hn. unfold sparse_vertcat. rewrite (proj2 (Z.eqb_eq _ _) Hn).
  eexists. reflexivity.
Qed.

(** The column pointers of the concatenation. *)
Lemma col_ptr_vertcat top bottom c j :
  sparse_vertcat top bottom = Ok c -> (j <= num_cols top)%nat ->
  col_ptr c j = length (flat_map (vertcat_rows top bottom) (seq 0 j)).
Proof.
  intros Hc Hj. apply sparse_vertcat_Ok in Hc as (_ & _ & Hci & _).
  unfold col_ptr. rewrite Hci, list_lookup_fmap, lookup_seq_lt by lia.
  simpl. lia.
Qed.

Lemma col_rows_vertcat top bottom c j :
  sparse_vertcat top bottom = Ok c -> (j < num_cols top)%nat ->
  col_rows c j = vertcat_rows top bottom j.
Proof.
  intros Hc Hj. unfold col_rows.
  rewrite !(col_ptr_vertcat top bottom c) by (auto; lia).
  apply sparse_vertcat_Ok in Hc as (_ & _ & _ & -> & _).
  apply slice_flat_map, Hj.
Qed.

Lemma col_vals_vertcat top bottom c j :
  sparse_vertcat top bottom = Ok c -> (j < num_cols top)%nat ->
  length (d top) = length (rowidx top) ->
  length (d bottom) = length (rowidx bottom) ->
  col_vals c j = vertcat_vals top bottom j.
Proof.
  intros Hc Hj Ht Hb. unfold col_vals.
  rewrite !(col_ptr_vertcat top bottom c) by (auto; lia).
  apply sparse_vertcat_Ok in Hc as (_ & -> & _).
  rewrite <- !(length_flat_map_eq (vertcat_rows top bottom) (vertcat_vals top bottom)).
  - apply slice_flat_map, Hj.
  - intros k. unfold vertcat_vals, vertcat_rows.
    rewrite !length_app, length_fmap, !length_col_vals by assumption. reflexivity.
  - intros k. unfold vertcat_vals, vertcat_rows.
    rewrite !length_app, length_fmap, !length_col_vals by assumption. reflexivity.
Qed.

End SparseFacts.

(** ** The sparse-matrix contracts: main results *)

(** C6.  For two matrices with well-formed column pointers and the same
    number of columns, [sparse_vertcat] returns a matrix with
    [m top + m bottom] rows and [n top] columns; its column [j] is [top]'s
    column [j] with the row indices as they are, followed by [bottom]'s
    column [j] with every row index increased by [m top]; and it stores
    [nnz top + nnz bottom] entries. *)
Theorem sparse_vertcat_contract {V : Type} (top bottom : coder_internal_sparse V) :
  csc_shape top -> csc_shape bottom -> n top = n bottom ->
  exists c,
    sparse_vertcat top bottom = Ok c /\
    m c = m top + m bottom /\
    n c = n top /\
    (forall j, (j < num_cols top)%nat ->
       col_rows c j = col_rows top j ++ ((fun r => r + m top) <$> col_rows bottom j) /\
       col_vals c j = col_vals top j ++ col_vals bottom j) /\
    nnz c = (nnz top + nnz bottom)%nat.
Proof.
  intros Ht Hb Hn.
  destruct (sparse_vertcat_returns top bottom Hn) as [c Hc].
  exists c. split; [exact Hc |].
  pose proof (sparse_vertcat_Ok top bottom c Hc) as (_ & Hd & _ & _ & Hm & Hnc).
  repeat split; try assumption.
  - apply col_rows_vertcat; assumption.
  - apply col_vals_vertcat; try assumption; [apply Ht | apply Hb].
  - unfold nnz. rewrite Hd. unfold vertcat_vals.
    rewrite length_flat_map_app, (cols_all_vals top Ht).
    replace (num_cols top) with (num_cols bottom) by (unfold num_cols; lia).
    rewrite (cols_all_vals bottom Hb). reflexivity.
Qed.

Lemma example_top_shape : csc_shape example_top.
Proof. closed_shape. Qed.

Lemma example_bottom_shape : csc_shape example_bottom.
Proof. closed_shape. Qed.

Lemma sparse_vertcat_contract_witness :
  exists c,
    sparse_vertcat example_top example_bottom = Ok c /\
    m c = m example_top + m example_bottom /\
    n c = n example_top /\
    (forall j, (j < num_cols example_top)%nat ->
       col_rows c j =
         col_rows example_top j ++
         ((fun r => r + m example_top) <$> col_rows example_bottom j) /\
       col_vals c j = col_vals example_top j ++ col_vals example_bottom j) /\
    nnz c = (nnz example_top + nnz example_bottom)%nat.
Proof.
  apply (sparse_vertcat_contract example_top example_bottom);
    [exact example_top_shape | exact example_bottom_shape | reflexivity].
Defined.

(** ** Sorting one column of a matrix *)

Lemma range_slice {A : Type} (x : list A) (lo hi : nat) :
  range x (Z.of_nat lo + 1) (Z.of_nat hi) = slice x lo hi.
Proof. unfold range, slice. f_equal; [lia | f_equal; lia]. Qed.

Lemma before_lookup {A : Type} (x x' : list A) (first : Z) (i : nat) :
  before x' first = before x first -> (i < Z.to_nat (first - 1))%nat ->
  x' !! i = x !! i.
Proof.
  unfold before. intros E Hi.
  rewrite <- (lookup_take_lt x' (Z.to_nat (first - 1)) i Hi), E.
  apply lookup_take_lt, Hi.
Qed.

Lemma after_lookup {A : Type} (x x' : list A) (last : Z) (i : nat) :
  after x' last = after x last -> (Z.to_nat last <= i)%nat ->
  x' !! i = x !! i.
Proof.
  unfold after. intros E Hi.
  replace i with (Z.to_nat last + (i - Z.to_nat last))%nat by lia.
  rewrite <- !lookup_drop, E. reflexivity.
Qed.

Lemma StronglySorted_impl_elem {A : Type} (R R' : A -> A -> Prop) (l : list A) :
  (forall a b, a ∈ l -> b ∈ l -> R a b -> R' a b) ->
  StronglySorted R l -> StronglySorted R' l.
Proof.
  intros HR Hs. induction Hs as [|a l Hs IH Ha]; constructor.
  - apply IH. intros b c Hb Hc. apply HR; apply elem_of_cons; auto.
  - rewrite Forall_forall in Ha |- *. intros b Hb.
    apply HR; [apply elem_of_cons; auto | apply elem_of_cons; auto | auto].
Qed.

Lemma StronglySorted_NoDup {A : Type} (R : A -> A -> Prop) (l : list A) :
  StronglySorted R l -> NoDup l -> StronglySorted (fun a b => R a b /\ a <> b) l.
Proof.
  intros Hs. induction Hs as [|a l Hs IH Ha]; intros Hn; constructor.
  - apply IH. apply NoDup_cons in Hn. apply Hn.
  - apply NoDup_cons in Hn as [Hna _].
    rewrite Forall_forall in Ha |- *. intros b Hb. split; [auto |].
    intros ->. contradiction.
Qed.

Section SortColumn.
Context {V : Type}.
Implicit Types (A : coder_internal_sparse V).

Lemma range_col A j : range (rowidx A) (col_first A j) (col_last A j) = col_rows A j.
Proof. apply range_slice. Qed.

(** A rewrite of the range of column [j] leaves the other columns alone. *)
Lemma other_columns_kept A j x' k :
  csc_shape A -> (j < num_cols A)%nat -> (k < num_cols A)%nat -> k <> j ->
  before x' (col_first A j) = before (rowidx A) (col_first A j) ->
  after x' (col_last A j) = after (rowidx A) (col_last A j) ->
  col_rows (set_rowidx A x') k = col_rows A k.
Proof.
  intros HA Hj Hk Hne Hb Ha. unfold col_rows, set_rowidx, col_ptr. simpl.
  fold (col_ptr A k). fold (col_ptr A (S k)).
  apply slice_ext. intros i Hi.
  destruct (decide (k < j)%nat) as [Hlt | Hge].
  - apply (before_lookup _ _ (col_first A j)); [exact Hb |].
    pose proof (col_ptr_mono A (S k) j HA ltac:(lia) ltac:(lia)).
    unfold col_first. lia.
  - apply (after_lookup _ _ (col_last A j)); [exact Ha |].
    pose proof (col_ptr_mono A (S j) k HA ltac:(lia) ltac:(lia)).
    unfold col_last. lia.
Qed.

Lemma col_bounds A j :
  csc_shape A -> (j < num_cols A)%nat ->
  Z.of_nat (length (rowidx A)) + 1 < Int32.int_max ->
  1 <= col_first A j /\ col_first A j <= col_last A j + 1 /\
  col_first A j < Int32.int_max /\
  col_last A j <= Z.of_nat (length (rowidx A)) /\
  col_last A j < Int32.int_max.
Proof.
  intros HA Hj Hlen. unfold col_first, col_last.
  pose proof (shape_mono A HA j Hj).
  pose proof (col_ptr_bound A (S j) HA ltac:(lia)).
  lia.
Qed.

End SortColumn.

(** C5 (amended).  Strictly ascending columns after each operation:
    - [b_insertionsort] applied to the range of one column whose row
      indices are pairwise distinct leaves that column strictly ascending
      and the other columns as they were;
    - [insertionsort] applied to the range of one column does the same,
      provided the entries are pairwise distinct key indices and the keys
      order any two entries of the column as their values do;
    - [sparse_vertcat] of two matrices in CSC form with the same number of
      columns returns a matrix whose columns are all strictly ascending. *)
Theorem csc_sorted_after_operations :
  (forall (V : Type) (A : coder_internal_sparse V) (j : nat),
      csc_shape A -> (j < num_cols A)%nat ->
      Z.of_nat (length (rowidx A)) + 1 < Int32.int_max ->
      NoDup (col_rows A j) ->
      exists x',
        returns (fun fuel =>
                   b_insertionsort fuel (rowidx A) (col_first A j) (col_last A j)) x' /\
        StronglySorted Z.lt (col_rows (set_rowidx A x') j) /\
        forall k, (k < num_cols A)%nat -> k <> j ->
                  col_rows (set_rowidx A x') k = col_rows A k) /\
  (forall (V : Type) (A : coder_internal_sparse V) (j : nat) (keyA keyB : list Z),
      csc_shape A -> (j < num_cols A)%nat ->
      Z.of_nat (length (rowidx A)) + 1 < Int32.int_max ->
      NoDup (col_rows A j) ->
      Forall (key_index keyA keyB) (col_rows A j) ->
      (forall a b, a ∈ col_rows A j -> b ∈ col_rows A j -> a < b ->
                   key_lt keyA keyB a b = true) ->
      exists x',
        returns (fun fuel =>
                   insertionsort fuel (mk_mem (rowidx A) keyA keyB)
                     (col_first A j) (col_last A j))
                (mk_mem x' keyA keyB) /\
        StronglySorted Z.lt (col_rows (set_rowidx A x') j) /\
        forall k, (k < num_cols A)%nat -> k <> j ->
                  col_rows (set_rowidx A x') k = col_rows A k) /\
  (forall (V : Type) (top bottom : coder_internal_sparse V),
      csc_form top -> csc_form bottom -> n top = n bottom ->
      exists c, sparse_vertcat top bottom = Ok c /\ csc_sorted c).
Proof.
  split; [| split].
  - intros V A j HA Hj Hlen Hnd.
    destruct (col_bounds A j HA Hj Hlen) as (B1 & B2 & B3 & B4 & B5).
    destruct (b_insertionsort_on_call (fun v : Z => v) (rowidx A)
                (col_first A j) (col_last A j))
      as (x' & Hrun & Hb & Hr & Ha); try assumption.
    exists x'. split; [exact Hrun |]. split.
    + pose proof (range_col (set_rowidx A x') j) as Hc.
      change (range x' (col_first A j) (col_last A j) =
              col_rows (set_rowidx A x') j) in Hc.
      rewrite <- Hc, Hr, range_col.
      apply StronglySorted_impl with
        (fun a b => ord_le (val_lt (fun v : Z => v)) a b /\ a <> b).
      * unfold ord_le, val_lt. lia.
      * apply StronglySorted_NoDup.
        -- apply isort_StronglySorted; [apply val_lt_asym | apply val_le_trans].
        -- unfold isort. rewrite isort_from_perm. exact Hnd.
    + intros k Hk Hne. apply other_columns_kept with j; assumption.
  - intros V A j keyA keyB HA Hj Hlen Hnd HF Hmono.
    destruct (col_bounds A j HA Hj Hlen) as (B1 & B2 & B3 & B4 & B5).
    destruct (insertionsort_call (rowidx A) keyA keyB (col_first A j) (col_last A j))
      as (x' & Hrun & Hb & Hr & Ha); try assumption.
    { rewrite range_col. exact HF. }
    exists x'. split; [exact Hrun |]. split.
    + pose proof (range_col (set_rowidx A x') j) as Hc.
      change (range x' (col_first A j) (col_last A j) =
              col_rows (set_rowidx A x') j) in Hc.
      rewrite <- Hc, Hr, range_col.
      apply StronglySorted_impl_elem with
        (fun a b => ord_le (key_lt keyA keyB) a b /\ a <> b).
      * intros a b Ha' Hb' [Hle Hab].
        unfold isort in Ha', Hb'. rewrite isort_from_perm in Ha', Hb'.
        destruct (Z.lt_trichotomy a b) as [Hlt | [Heq | Hgt]];
          [exact Hlt | contradiction |].
        unfold ord_le in Hle. rewrite (Hmono b a Hb' Ha' Hgt) in Hle. discriminate.
      * apply StronglySorted_NoDup.
        -- apply isort_StronglySorted; [apply key_lt_asym | apply key_le_trans].
        -- unfold isort. rewrite isort_from_perm. exact Hnd.
    + intros k Hk Hne. apply other_columns_kept with j; assumption.
  - intros V top bottom [Ht Rt St] [Hb Rb Sb] Hn.
    destruct (sparse_vertcat_returns top bottom Hn) as [c Hc].
    exists c. split; [exact Hc |].
    pose proof (sparse_vertcat_Ok top bottom c Hc) as (_ & _ & _ & _ & _ & Hnc).
    intros j Hj. unfold num_cols in Hj. rewrite Hnc in Hj.
    rewrite (col_rows_vertcat top bottom c j Hc Hj). unfold vertcat_rows.
    apply StronglySorted_app. repeat split.
    + intros r1 r2 H1 H2. apply list_elem_of_fmap in H2 as (r & -> & H2).
      pose proof (Forall_slice _ _ (col_ptr top j) (col_ptr top (S j)) Rt) as F1.
      pose proof (Forall_slice _ _ (col_ptr bottom j) (col_ptr bottom (S j)) Rb) as F2.
      rewrite Forall_forall in F1, F2.
      specialize (F1 r1 H1). specialize (F2 r H2). lia.
    + apply St, Hj.
    + apply StronglySorted_fmap with Z.lt.
      * intros a b Hab. lia.
      * apply Sb. unfold num_cols in *. rewrite <- Hn. exact Hj.
Qed.

Lemma example_unsorted_shape : csc_shape example_unsorted.
Proof. closed_shape. Qed.

Lemma example_top_form : csc_form example_top.
Proof.
  split; [exact example_top_shape | simpl; repeat constructor; lia | each_column].
Qed.

Lemma example_bottom_form : csc_form example_bottom.
Proof.
  split; [exact example_bottom_shape | simpl; repeat constructor; lia | each_column].
Qed.

Lemma csc_sorted_after_operations_witness :
  (exists x',
      returns (fun fuel =>
                 b_insertionsort fuel (rowidx example_unsorted)
                   (col_first example_unsorted 0) (col_last example_unsorted 0)) x' /\
      StronglySorted Z.lt (col_rows (set_rowidx example_unsorted x') 0) /\
      forall k, (k < num_cols example_unsorted)%nat -> k <> 0%nat ->
                col_rows (set_rowidx example_unsorted x') k =
                col_rows example_unsorted k) /\
  (exists x',
      returns (fun fuel =>
                 insertionsort fuel
                   (mk_mem (rowidx example_unsorted) [10; 20; 30] [0; 0; 0])
                   (col_first example_unsorted 0) (col_last example_unsorted 0))
              (mk_mem x' [10; 20; 30] [0; 0; 0]) /\
      StronglySorted Z.lt (col_rows (set_rowidx example_unsorted x') 0) /\
      forall k, (k < num_cols example_unsorted)%nat -> k <> 0%nat ->
                col_rows (set_rowidx example_unsorted x') k =
                col_rows example_unsorted k) /\
  (exists c, sparse_vertcat example_top example_bottom = Ok c /\ csc_sorted c).
Proof.
  split; [| split].
  - apply (proj1 csc_sorted_after_operations Z example_unsorted 0%nat);
      [exact example_unsorted_shape | vm_compute; lia
      | vm_compute; reflexivity
      | apply (bool_decide_unpack _); vm_compute; exact I].
  - apply (proj1 (proj2 csc_sorted_after_operations) Z example_unsorted 0%nat);
      [exact example_unsorted_shape | vm_compute; lia
      | vm_compute; reflexivity
      | apply (bool_decide_unpack _); vm_compute; exact I
      | apply (bool_decide_unpack _); vm_compute; exact I
      | ].
    intros a b Ha Hb Hab.
    change (col_rows example_unsorted 0) with [2; 1] in Ha, Hb.
    apply elem_of_cons in Ha as [-> | Ha];
      [| apply list_elem_of_singleton in Ha as ->];
      (apply elem_of_cons in Hb as [-> | Hb];
       [| apply list_elem_of_singleton in Hb as ->]);
      try lia; reflexivity.
  - apply (proj2 (proj2 csc_sorted_after_operations) Z example_top example_bottom);
      [exact example_top_form | exact example_bottom_form | reflexivity].
Defined.

Lemma example_column_form : csc_form example_column.
Proof.
  split; [closed_shape | simpl; repeat constructor; lia | each_column].
Qed.

(** C5 as stated fails.  The keyed sort orders a column by the keys, not by
    the row indices: on the column [{1, 2}] with first keys [9, 5] it
    returns [{2, 1}].  And the plain sort applied across the two columns
    [{0, 2}] and [{1, 2}] leaves the second column as [{2, 2}]. *)
Lemma csc_sorted_after_sort_counterexample :
  (csc_form example_column /\
   Forall (key_index [9; 5] [0; 0]) (col_rows example_column 0) /\
   returns (fun fuel =>
              insertionsort fuel (mk_mem (rowidx example_column) [9; 5] [0; 0])
                (col_first example_column 0) (col_last example_column 0))
           (mk_mem [2; 1] [9; 5] [0; 0]) /\
   ~ csc_sorted (set_rowidx example_column [2; 1])) /\
  (csc_form example_top /\
   returns (fun fuel => b_insertionsort fuel (rowidx example_top) 1 4) [0; 1; 2; 2] /\
   ~ csc_sorted (set_rowidx example_top [0; 1; 2; 2])).
Proof.
  split; [split; [| split; [| split]] | split; [| split]].
  - exact example_column_form.
  - apply (bool_decide_unpack _). vm_compute. exact I.
  - refine (insertionsort_isort [9; 5] [0; 0] [] [1; 2] [] 1 2
              eq_refl eq_refl _ _ _);
      [unfold Int32.int_max; lia | unfold Int32.int_max; lia
      | apply (bool_decide_unpack _); vm_compute; exact I].
  - intros H. specialize (H 0%nat ltac:(vm_compute; lia)).
    change (StronglySorted Z.lt [2; 1]) in H.
    apply StronglySorted_cons in H as [H _].
    apply Forall_cons in H as [H _]. lia.
  - exact example_top_form.
  - refine (b_insertionsort_isort [] [0; 2; 1; 2] [] 1 4 eq_refl eq_refl _ _);
      unfold Int32.int_max; lia.
  - intros H. specialize (H 1%nat ltac:(vm_compute; lia)).
    change (StronglySorted Z.lt [2; 2]) in H.
    apply StronglySorted_cons in H as [H _].
    apply Forall_cons in H as [H _]. lia.
Qed.

(** * Further properties of the sort routines *)

(** ** The functional insertion sort: comparisons that agree, composition *)

Section IsortMore.
Context {A : Type}.
Implicit Types (lt : A -> A -> bool) (s u r : list A) (xc : A).

Lemma shift_in_ext lt lt' xc r :
  (forall v, v ∈ r -> lt xc v = lt' xc v) ->
  shift_in lt xc r = shift_in lt' xc r.
Proof.
  induction r as [|v r IH]; intros H; [reflexivity |].
  simpl. rewrite <- (H v) by (apply elem_of_cons; auto).
  destruct (lt xc v); [| reflexivity].
  f_equal. apply IH. intros w Hw. apply H, elem_of_cons. auto.
Qed.

Lemma insert_last_ext lt lt' s xc :
  (forall v, v ∈ s -> lt xc v = lt' xc v) ->
  insert_last lt s xc = insert_last lt' s xc.
Proof.
  intros H. unfold insert_last. f_equal. apply shift_in_ext.
  intros v Hv. apply H. apply elem_of_reverse. exact Hv.
Qed.

(** Only the comparisons between elements of the list matter. *)
Lemma isort_from_ext lt lt' s u :
  (forall a b, a ∈ s ++ u -> b ∈ s ++ u -> lt a b = lt' a b) ->
  isort_from lt s u = isort_from lt' s u.
Proof.
  revert s. induction u as [|xc u IH]; intros s H; [reflexivity |].
  rewrite !isort_from_cons.
  rewrite (insert_last_ext lt lt' s xc).
  - apply IH. intros a b Ha Hb.
    apply H; rewrite (cons_middle xc s u), app_assoc, <- (insert_last_perm lt');
      assumption.
  - intros v Hv. apply H; apply elem_of_app; [right | left]; [| exact Hv].
    apply elem_of_cons. auto.
Qed.

Lemma isort_from_app lt s u u' :
  isort_from lt s (u ++ u') = isort_from lt (isort_from lt s u) u'.
Proof. apply foldl_app. Qed.

(** Sorting a front part first does not change the result. *)
Lemma isort_isort_app lt u u' :
  (forall a b, lt a b = true -> lt b a = false) ->
  (forall a b c, ord_le lt a b -> ord_le lt b c -> ord_le lt a c) ->
  isort lt (isort lt u ++ u') = isort lt (u ++ u').
Proof.
  intros Hasym Htrans. unfold isort. rewrite !isort_from_app. f_equal.
  apply (isort_from_sorted lt []). simpl.
  apply isort_StronglySorted; assumption.
Qed.

Lemma shift_in_fmap {B : Type} (f : A -> B) lt (lt' : B -> B -> bool) xc r :
  (forall a b, lt' (f a) (f b) = lt a b) ->
  shift_in lt' (f xc) (f <$> r) = f <$> shift_in lt xc r.
Proof.
  intros H. induction r as [|v r IH]; [reflexivity |].
  rewrite fmap_cons. cbn [shift_in]. rewrite H.
  destruct (lt xc v); rewrite !fmap_cons, ?IH; reflexivity.
Qed.

(** The sort commutes with a map that keeps the comparison. *)
Lemma isort_from_fmap {B : Type} (f : A -> B) lt (lt' : B -> B -> bool) s u :
  (forall a b, lt' (f a) (f b) = lt a b) ->
  isort_from lt' (f <$> s) (f <$> u) = f <$> isort_from lt s u.
Proof.
  intros H. revert s. induction u as [|xc u IH]; intros s; [reflexivity |].
  rewrite fmap_cons, !isort_from_cons, <- IH. f_equal.
  unfold insert_last.
  rewrite <- fmap_reverse, (shift_in_fmap f lt lt') by exact H.
  symmetry. apply fmap_reverse.
Qed.

End IsortMore.

(** ** The array a call returns, in full *)

Lemma b_insertionsort_on_returns {T : Type} (val : T -> Z) (x : list T) xstart xend :
  1 <= xstart -> xstart <= xend + 1 -> xstart < Int32.int_max ->
  xend <= Z.of_nat (length x) -> xend < Int32.int_max ->
  returns (fun fuel => b_insertionsort_on val fuel x xstart xend)
          (before x xstart ++ isort (val_lt val) (range x xstart xend) ++ after x xend).
Proof.
  intros H1 H2 H0 H3 H4.
  destruct (range_split x xstart xend) as (Hx & Hpre & Hmid); try lia.
  pose proof (b_insertionsort_on_isort val (before x xstart)
                (range x xstart xend) (after x xend) xstart xend) as Hrun.
  rewrite <- Hx in Hrun. apply Hrun; unfold Int32.int_max in *; lia.
Qed.

Lemma insertionsort_returns (x keyA keyB : list Z) xstart xend :
  1 <= xstart -> xstart <= xend + 1 -> xstart < Int32.int_max ->
  xend <= Z.of_nat (length x) -> xend < Int32.int_max ->
  Forall (key_index keyA keyB) (range x xstart xend) ->
  returns (fun fuel => insertionsort fuel (mk_mem x keyA keyB) xstart xend)
          (mk_mem (before x xstart ++
                   isort (key_lt keyA keyB) (range x xstart xend) ++
                   after x xend) keyA keyB).
Proof.
  intros H1 H2 H0 H3 H4 HF.
  destruct (range_split x xstart xend) as (Hx & Hpre & Hmid); try lia.
  pose proof (insertionsort_isort keyA keyB (before x xstart)
                (range x xstart xend) (after x xend) xstart xend) as Hrun.
  rewrite <- Hx in Hrun.
  apply Hrun; try assumption; unfold Int32.int_max in *; lia.
Qed.

(** Replacing the range by a list of the same length keeps the length of
    the array and every entry outside the range. *)
Lemma replace_range_frame {A : Type} (x mid' : list A) (first last : Z) :
  1 <= first -> first <= last + 1 -> last <= Z.of_nat (length x) ->
  length mid' = length (range x first last) ->
  length (before x first ++ mid' ++ after x last) = length x /\
  forall i : nat,
    (Z.of_nat i < first - 1 \/ last <= Z.of_nat i) ->
    (before x first ++ mid' ++ after x last) !! i = x !! i.
Proof.
  intros H1 H2 H3 Hlen.
  destruct (range_split x first last) as (_ & Hpre & Hmid); try lia.
  assert (Hafter : length (after x last) = (length x - Z.to_nat last)%nat)
    by (unfold after; apply length_drop).
  split.
  - rewrite !length_app. lia.
  - intros i [Hi | Hi].
    + rewrite lookup_app_l by lia. unfold before. apply lookup_take_lt. lia.
    + rewrite app_assoc, lookup_app_r by (rewrite length_app; lia).
      unfold after. rewrite lookup_drop, length_app. f_equal. lia.
Qed.

(** ** [b_insertionsort]: more budget never changes an outcome *)

Section TaggedStable.
Context {T : Type} (val : T -> Z).

Lemma b_insertionsort_while_on_S fuel (x : list T) xstart xc idx :
  b_insertionsort_while_on val (S fuel) x xstart xc idx =
  if xstart <=? idx then
    v ← load x (Int32.sub idx 1);
    if val xc <? val v then
      v' ← load x (Int32.sub idx 1);
      x' ← store x idx v';
      b_insertionsort_while_on val fuel x' xstart xc (Int32.sub idx 1)
    else Done (x, idx)
  else Done (x, idx).
Proof. reflexivity. Qed.

Lemma b_insertionsort_for_on_S fuel (x : list T) xstart xend k :
  b_insertionsort_for_on val (S fuel) x xstart xend k =
  if k <=? xend then
    xc ← load x (Int32.sub k 1);
    '(x1, idx) ← b_insertionsort_while_on val fuel x xstart xc (Int32.sub k 1);
    x2 ← store x1 idx xc;
    b_insertionsort_for_on val fuel x2 xstart xend (Int32.add k 1)
  else Done x.
Proof. reflexivity. Qed.

Lemma b_insertionsort_while_on_stable (x : list T) xstart xc idx :
  fuel_stable (fun fuel => b_insertionsort_while_on val fuel x xstart xc idx).
Proof.
  intros fuel. revert x idx.
  induction fuel as [|fuel IH]; intros x idx H; [contradiction H; reflexivity |].
  rewrite (b_insertionsort_while_on_S fuel) in H |- *.
  rewrite (b_insertionsort_while_on_S (S fuel)).
  destruct (xstart <=? idx); [| reflexivity].
  destruct (load x (Int32.sub idx 1)) as [v| |]; try reflexivity.
  cbn [mbind outcome_bind] in H |- *.
  destruct (val xc <? val v); [| reflexivity].
  cbn [mbind outcome_bind] in H |- *.
  destruct (store x idx v) as [x'| |]; try reflexivity.
  apply IH, H.
Qed.

Lemma b_insertionsort_for_on_stable (x : list T) xstart xend k :
  fuel_stable (fun fuel => b_insertionsort_for_on val fuel x xstart xend k).
Proof.
  intros fuel. revert x k.
  induction fuel as [|fuel IH]; intros x k H; [contradiction H; reflexivity |].
  rewrite (b_insertionsort_for_on_S fuel) in H |- *.
  rewrite (b_insertionsort_for_on_S (S fuel)).
  destruct (k <=? xend); [| reflexivity].
  destruct (load x (Int32.sub k 1)) as [xc| |]; try reflexivity.
  cbn [mbind outcome_bind] in H |- *.
  rewrite (b_insertionsort_while_on_stable x xstart xc (Int32.sub k 1) fuel).
  - destruct (b_insertionsort_while_on val fuel x xstart xc (Int32.sub k 1))
      as [[x1 idx]| |]; try reflexivity.
    cbn [mbind outcome_bind] in H |- *.
    destruct (store x1 idx xc) as [x2| |]; try reflexivity.
    apply IH, H.
  - intros E. rewrite E in H. apply H. reflexivity.
Qed.

Lemma b_insertionsort_on_stable (x : list T) xstart xend :
  fuel_stable (fun fuel => b_insertionsort_on val fuel x xstart xend).
Proof. apply b_insertionsort_for_on_stable. Qed.

End TaggedStable.

Lemma b_insertionsort_stable (x : list Z) xstart xend :
  fuel_stable (fun fuel => b_insertionsort fuel x xstart xend).
Proof. exact (b_insertionsort_on_stable (fun v : Z => v) x xstart xend). Qed.

(** An outcome reached with some budget is the outcome of every larger one. *)
Lemma fuel_stable_returns {A : Type} (run : nat -> outcome A) (a : A) (n : nat) :
  fuel_stable run -> run n = Done a -> returns run a.
Proof.
  intros Hst Hn. exists n. intros fuel Hf.
  rewrite (fuel_stable_le run Hst n fuel Hf); [exact Hn |].
  rewrite Hn. discriminate.
Qed.

Lemma load_not_Timeout {A : Type} (a : list A) (i : Z) : load a i <> Timeout.
Proof.
  unfold load. destruct (0 <=? i); [| discriminate].
  destruct (a !! Z.to_nat i); discriminate.
Qed.

Lemma load_negative {A : Type} (a : list A) (i : Z) : i < 0 -> load a i = Fault.
Proof. intros H. unfold load. rewrite (proj2 (Z.leb_gt _ _)) by lia. reflexivity. Qed.

Lemma load_beyond {A : Type} (a : list A) (i : Z) :
  Z.of_nat (length a) <= i -> load a i = Fault.
Proof.
  intros H. unfold load. destruct (0 <=? i); [| reflexivity].
  rewrite lookup_ge_None_2 by lia. reflexivity.
Qed.

Lemma length_isort {A : Type} (lt : A -> A -> bool) (l : list A) :
  length (isort lt l) = length l.
Proof. unfold isort. rewrite length_isort_from. reflexivity. Qed.

(** ** What the routines keep, and where they stop *)

(** X1.  [b_insertionsort] on a range within the array, which may be empty,
    keeps the length of the array and every entry outside the range. *)
Theorem b_insertionsort_frame (x : list Z) (xstart xend : Z) :
  1 <= xstart -> xstart <= xend + 1 -> xstart < Int32.int_max ->
  xend <= Z.of_nat (length x) -> xend < Int32.int_max ->
  exists x',
    returns (fun fuel => b_insertionsort fuel x xstart xend) x' /\
    length x' = length x /\
    forall i : nat,
      (Z.of_nat i < xstart - 1 \/ xend <= Z.of_nat i) -> x' !! i = x !! i.
Proof.
  intros H1 H2 H0 H3 H4. eexists. split.
  - apply (b_insertionsort_on_returns (fun v : Z => v)); assumption.
  - apply replace_range_frame; try assumption. apply length_isort.
Qed.

Lemma b_insertionsort_frame_witness :
  exists x',
    returns (fun fuel => b_insertionsort fuel [5; 3; 9; 1; 3; 7] 2 5) x' /\
    length x' = length [5; 3; 9; 1; 3; 7] /\
    forall i : nat,
      (Z.of_nat i < 2 - 1 \/ 5 <= Z.of_nat i) -> x' !! i = [5; 3; 9; 1; 3; 7] !! i.
Proof.
  apply (b_insertionsort_frame [5; 3; 9; 1; 3; 7] 2 5);
    [lia | lia | unfold Int32.int_max; lia | simpl; lia | unfold Int32.int_max; lia].
Defined.

(** X2.  [insertionsort] on a range of key indices within the array, which
    may be empty, leaves the range a permutation of what it held, and keeps
    the length of the array and every entry outside the range. *)
Theorem insertionsort_permutes (x keyA keyB : list Z) (xstart xend : Z) :
  1 <= xstart -> xstart <= xend + 1 -> xstart < Int32.int_max ->
  xend <= Z.of_nat (length x) -> xend < Int32.int_max ->
  Forall (key_index keyA keyB) (range x xstart xend) ->
  exists x',
    returns (fun fuel => insertionsort fuel (mk_mem x keyA keyB) xstart xend)
            (mk_mem x' keyA keyB) /\
    range x' xstart xend ≡ₚ range x xstart xend /\
    length x' = length x /\
    forall i : nat,
      (Z.of_nat i < xstart - 1 \/ xend <= Z.of_nat i) -> x' !! i = x !! i.
Proof.
  intros H1 H2 H0 H3 H4 HF. eexists. split; [| split].
  - apply insertionsort_returns; assumption.
  - destruct (range_split x xstart xend) as (_ & Hpre & Hmid); try lia.
    destruct (range_middle (before x xstart)
                (isort (key_lt keyA keyB) (range x xstart xend)) (after x xend)
                xstart xend) as (-> & _); [lia | rewrite length_isort; lia |].
    apply (isort_from_perm _ []).
  - apply replace_range_frame; try assumption. apply length_isort.
Qed.

Lemma insertionsort_permutes_witness :
  exists x',
    returns (fun fuel =>
               insertionsort fuel (mk_mem [4; 3; 1; 2; 4] [7; 7; 5; 7] [2; 1; 0; 1]) 2 4)
            (mk_mem x' [7; 7; 5; 7] [2; 1; 0; 1]) /\
    range x' 2 4 ≡ₚ range [4; 3; 1; 2; 4] 2 4 /\
    length x' = length [4; 3; 1; 2; 4] /\
    forall i : nat,
      (Z.of_nat i < 2 - 1 \/ 4 <= Z.of_nat i) -> x' !! i = [4; 3; 1; 2; 4] !! i.
Proof.
  apply (insertionsort_permutes [4; 3; 1; 2; 4] [7; 7; 5; 7] [2; 1; 0; 1] 2 4);
    [lia | lia | unfold Int32.int_max; lia | simpl; lia | unfold Int32.int_max; lia |].
  apply (bool_decide_unpack _). vm_compute. exact I.
Defined.

(** X3.  A range of at most one position ([xend <= xstart]) makes neither
    routine touch memory: whatever the array and the comparison vectors,
    and wherever the range lies, the call returns them as they are. *)
Theorem short_range_untouched (x : list Z) (m : sort_mem) (xstart xend : Z)
    (fuel : nat) :
  Int32.in_range xstart -> xstart < Int32.int_max -> xend <= xstart ->
  b_insertionsort (S fuel) x xstart xend = Done x /\
  insertionsort (S fuel) m xstart xend = Done m.
Proof.
  intros Hr Hmax Hle.
  assert (Hadd : Int32.add xstart 1 = xstart + 1).
  { apply wrap_in_range.
    unfold Int32.in_range, Int32.int_min, Int32.int_max in *. lia. }
  unfold b_insertionsort, insertionsort. rewrite Hadd. simpl.
  rewrite (proj2 (Z.leb_gt _ _)) by lia. split; reflexivity.
Qed.

Lemma short_range_untouched_witness :
  b_insertionsort 1 [] 7 7 = Done [] /\
  insertionsort 1 (mk_mem [9; 0] [] []) 7 7 = Done (mk_mem [9; 0] [] []).
Proof.
  apply (short_range_untouched [] (mk_mem [9; 0] [] []) 7 7 0);
    unfold Int32.in_range, Int32.int_min, Int32.int_max; lia.
Defined.

(** X4.  With [xstart] below 1 and a range of at least two positions both
    routines read in front of the array: whatever the array and the
    comparison vectors, the call faults. *)
Theorem start_below_one_faults (x : list Z) (m : sort_mem) (xstart xend : Z)
    (fuel : nat) :
  Int32.in_range xstart -> xstart <= 0 -> xstart < xend ->
  b_insertionsort (S (S fuel)) x xstart xend = Fault /\
  insertionsort (S (S fuel)) m xstart xend = Fault.
Proof.
  intros Hr H0 Hlt.
  assert (Hadd : Int32.add xstart 1 = xstart + 1).
  { apply wrap_in_range.
    unfold Int32.in_range, Int32.int_min, Int32.int_max in *. lia. }
  assert (Hsub : Int32.sub (xstart + 1) 1 = xstart).
  { unfold Int32.sub. replace (xstart + 1 - 1) with xstart by lia.
    apply wrap_in_range, Hr. }
  unfold b_insertionsort, insertionsort. rewrite Hadd.
  change (b_insertionsort_for (S (S fuel)) x xstart xend (xstart + 1))
    with (b_insertionsort_for_on (fun v : Z => v) (S (S fuel)) x xstart xend
            (xstart + 1)).
  rewrite b_insertionsort_for_on_S, insertionsort_for_S.
  rewrite (proj2 (Z.leb_le _ _)) by lia. rewrite Hsub.
  destruct (Z.eq_dec xstart 0) as [-> | Hne].
  - split.
    + pose proof (load_not_Timeout x 0) as Hnt.
      destruct (load x 0) as [xc| |]; [| reflexivity | contradiction].
      cbn [mbind outcome_bind]. rewrite b_insertionsort_while_on_S.
      reflexivity.
    + pose proof (load_not_Timeout (x_data m) 0) as Hnt.
      destruct (load (x_data m) 0) as [v| |]; [| reflexivity | contradiction].
      cbn [mbind outcome_bind]. rewrite insertionsort_while_S.
      change (negb false && (0 <=? Int32.add (Int32.sub (0 + 1) 2) 1)) with true.
      cbv iota. unfold insertionsort_cmp.
      pose proof (load_not_Timeout (f1 (env0 m)) (Int32.sub v 1)) as Hnt'.
      destruct (load (f1 (env0 m)) (Int32.sub v 1)) as [a| |];
        [| reflexivity | contradiction].
      reflexivity.
  - rewrite !load_negative by lia. split; reflexivity.
Qed.

Lemma start_below_one_faults_witness :
  b_insertionsort 2 [5; 3; 9] 0 3 = Fault /\
  insertionsort 2 (mk_mem [2; 1; 3] [7; 5; 6] [0; 0; 0]) 0 3 = Fault.
Proof.
  apply (start_below_one_faults [5; 3; 9] (mk_mem [2; 1; 3] [7; 5; 6] [0; 0; 0]) 0 3 0);
    unfold Int32.in_range, Int32.int_min, Int32.int_max; lia.
Defined.

Section TaggedOverrun.
Context {T : Type} (val : T -> Z).
Implicit Types (pre s u : list T).

(** With [xend] behind the array, the [for] loop works through the array
    and then reads behind it. *)
Lemma b_insertionsort_for_on_overrun u : forall pre s xstart xend k,
  xstart = Z.of_nat (length pre) + 1 ->
  k = Z.of_nat (length pre + length s) + 1 ->
  Z.of_nat (length pre + length s + length u) < xend ->
  xend <= Int32.int_max ->
  exists n, forall fuel, (n <= fuel)%nat ->
    b_insertionsort_for_on val fuel (pre ++ s ++ u) xstart xend k = Fault.
Proof.
  induction u as [|xc u IH]; intros pre s xstart xend k Hs Hk He Hmax.
  - assert (Hsub : Int32.sub k 1 = k - 1).
    { apply wrap_in_range.
      unfold Int32.in_range, Int32.int_min, Int32.int_max in *. simpl in He. lia. }
    exists 1%nat. intros [|fuel] Hf; [lia |].
    rewrite b_insertionsort_for_on_S, (proj2 (Z.leb_le _ _)) by (simpl in He; lia).
    rewrite Hsub, load_beyond; [reflexivity |].
    rewrite app_nil_r, length_app. lia.
  - simpl in He.
    assert (Hsub : Int32.sub k 1 = k - 1).
    { apply wrap_in_range.
      unfold Int32.in_range, Int32.int_min, Int32.int_max in *. lia. }
    assert (Hadd : Int32.add k 1 = k + 1).
    { apply wrap_in_range.
      unfold Int32.in_range, Int32.int_min, Int32.int_max in *. lia. }
    destruct (b_insertionsort_while_on_place val (reverse s) pre xc u xc
                xstart (k - 1)) as (x1 & i & [n1 Hn1] & Hst).
    { exact Hs. } { rewrite length_reverse. lia. }
    { unfold Int32.int_max in *. lia. }
    rewrite reverse_involutive in Hn1.
    destruct (IH pre (insert_last (val_lt val) s xc) xstart xend (k + 1))
      as [n2 Hn2].
    { exact Hs. } { rewrite length_insert_last. lia. }
    { rewrite length_insert_last. lia. } { exact Hmax. }
    exists (S (n1 `max` n2)). intros [|fuel] Hf; [lia |].
    rewrite b_insertionsort_for_on_S, (proj2 (Z.leb_le _ _)) by lia.
    rewrite Hsub, Hadd.
    replace (load _ (k - 1)) with (Done xc).
    + cbn [mbind outcome_bind]. rewrite Hn1 by lia.
      cbn [mbind outcome_bind]. rewrite Hst.
      cbn [mbind outcome_bind]. apply Hn2. lia.
    + symmetry. rewrite app_assoc. apply load_middle.
      rewrite length_app. lia.
Qed.

End TaggedOverrun.

(** X5.  With [xend] behind the last element [b_insertionsort] reads behind
    the array: for every array and every [xstart] from 1 below [xend], the
    call faults once the budget lets it get there. *)
Theorem b_insertionsort_end_beyond_array (x : list Z) (xstart xend : Z) :
  1 <= xstart -> xstart < xend -> Z.of_nat (length x) < xend ->
  xend <= Int32.int_max ->
  exists n, forall fuel, (n <= fuel)%nat ->
    b_insertionsort fuel x xstart xend = Fault.
Proof.
  intros H1 Hlt Hlen Hmax.
  assert (Hadd : Int32.add xstart 1 = xstart + 1).
  { apply wrap_in_range.
    unfold Int32.in_range, Int32.int_min, Int32.int_max in *. lia. }
  cut (exists n, forall fuel, (n <= fuel)%nat ->
         b_insertionsort_for_on (fun v : Z => v) fuel x xstart xend (xstart + 1)
         = Fault).
  { intros [n Hn]. exists n. intros fuel Hf.
    unfold b_insertionsort. rewrite Hadd. apply Hn, Hf. }
  destruct (decide (xstart <= Z.of_nat (length x))) as [Hin | Hout].
  - rewrite <- (take_drop (Z.to_nat (xstart - 1)) x).
    assert (Hpre : length (take (Z.to_nat (xstart - 1)) x) = Z.to_nat (xstart - 1))
      by (rewrite length_take; lia).
    assert (Hmid : length (drop (Z.to_nat (xstart - 1)) x) =
                   (length x - Z.to_nat (xstart - 1))%nat) by apply length_drop.
    destruct (drop (Z.to_nat (xstart - 1)) x) as [|m0 u] eqn:E;
      [simpl in Hmid; lia |].
    apply (b_insertionsort_for_on_overrun (fun v : Z => v) u
             (take (Z.to_nat (xstart - 1)) x) [m0]); simpl in *; lia.
  - assert (Hsub : Int32.sub (xstart + 1) 1 = xstart).
    { unfold Int32.sub. replace (xstart + 1 - 1) with xstart by lia.
      apply wrap_in_range.
      unfold Int32.in_range, Int32.int_min, Int32.int_max in *. lia. }
    exists 1%nat. intros [|fuel] Hf; [lia |].
    rewrite b_insertionsort_for_on_S, (proj2 (Z.leb_le _ _)) by lia.
    rewrite Hsub, load_beyond by lia. reflexivity.
Qed.

Lemma b_insertionsort_end_beyond_array_witness :
  exists n, forall fuel, (n <= fuel)%nat ->
    b_insertionsort fuel [5; 3; 9] 1 4 = Fault.
Proof.
  apply (b_insertionsort_end_beyond_array [5; 3; 9] 1 4);
    [lia | lia | simpl; lia | unfold Int32.int_max; lia].
Defined.

(** X6.  On a range within the array, which may be empty, every access of
    [b_insertionsort] stays within the array: no budget makes it fault. *)
Theorem b_insertionsort_in_bounds (x : list Z) (xstart xend : Z) :
  1 <= xstart -> xstart <= xend + 1 -> xstart < Int32.int_max ->
  xend <= Z.of_nat (length x) -> xend < Int32.int_max ->
  forall fuel, b_insertionsort fuel x xstart xend <> Fault.
Proof.
  intros H1 H2 H0 H3 H4.
  eapply returns_no_fault; [apply b_insertionsort_stable |].
  apply (b_insertionsort_on_returns (fun v : Z => v)); assumption.
Qed.

Lemma b_insertionsort_in_bounds_witness :
  5 <= Z.of_nat (length [5; 3; 9; 1; 3; 7]) /\
  forall fuel, b_insertionsort fuel [5; 3; 9; 1; 3; 7] 2 5 <> Fault.
Proof.
  split; [simpl; lia |].
  apply (b_insertionsort_in_bounds [5; 3; 9; 1; 3; 7] 2 5);
    [lia | lia | unfold Int32.int_max; lia | simpl; lia | unfold Int32.int_max; lia].
Defined.

(** ** How calls compose *)

Lemma split_length {A : Type} (x : list A) (n : nat) :
  (n <= length x)%nat -> exists l r, x = l ++ r /\ length l = n.
Proof.
  intros H. exists (take n x), (drop n x). split.
  - symmetry. apply take_drop.
  - rewrite length_take. lia.
Qed.

(** X7.  Sorting a front part of a range first changes nothing: after
    [b_insertionsort] on [xstart .. xmid], [b_insertionsort] on
    [xstart .. xend] returns what it returns on the array as it was.  With
    [xmid = xend] this is sorting twice; with [xmid = xend - 1] it is the
    insertion of one more element into a sorted range. *)
Theorem b_insertionsort_incremental (x : list Z) (xstart xmid xend : Z) :
  1 <= xstart -> xstart <= xmid -> xmid <= xend ->
  xend <= Z.of_nat (length x) -> xend < Int32.int_max ->
  exists x1 x2,
    returns (fun fuel => b_insertionsort fuel x xstart xmid) x1 /\
    returns (fun fuel => b_insertionsort fuel x1 xstart xend) x2 /\
    returns (fun fuel => b_insertionsort fuel x xstart xend) x2.
Proof.
  intros H1 H2 H3 H4 H5.
  destruct (split_length x (Z.to_nat (xstart - 1))) as (pre & r1 & -> & Lpre);
    [lia |].
  rewrite length_app in H4.
  destruct (split_length r1 (Z.to_nat (xmid + 1 - xstart))) as (a & r2 & -> & La);
    [lia |].
  rewrite length_app in H4.
  destruct (split_length r2 (Z.to_nat (xend - xmid))) as (b & post & -> & Lb);
    [lia |].
  exists (pre ++ isort Z.ltb a ++ b ++ post),
         (pre ++ isort Z.ltb (a ++ b) ++ post).
  split; [| split].
  - apply b_insertionsort_isort; unfold Int32.int_max in *; lia.
  - rewrite <- (isort_isort_app Z.ltb a b) by (unfold ord_le; lia).
    rewrite (app_assoc (isort Z.ltb a) b post).
    apply b_insertionsort_isort;
      rewrite ?length_app, ?length_isort; unfold Int32.int_max in *; lia.
  - rewrite (app_assoc a b post).
    apply b_insertionsort_isort;
      rewrite ?length_app; unfold Int32.int_max in *; lia.
Qed.

Lemma b_insertionsort_incremental_witness :
  exists x1 x2,
    returns (fun fuel => b_insertionsort fuel [5; 3; 9; 1; 3; 7] 2 4) x1 /\
    returns (fun fuel => b_insertionsort fuel x1 2 6) x2 /\
    returns (fun fuel => b_insertionsort fuel [5; 3; 9; 1; 3; 7] 2 6) x2.
Proof.
  apply (b_insertionsort_incremental [5; 3; 9; 1; 3; 7] 2 4 6);
    [lia | lia | lia | simpl; lia | unfold Int32.int_max; lia].
Defined.

(** X8.  What [b_insertionsort] leaves in the range depends only on which
    values the range held, not on their order: two arrays whose ranges are
    permutations of each other end with the same range. *)
Theorem b_insertionsort_canonical (x y : list Z) (xstart xend : Z) :
  1 <= xstart -> xstart <= xend ->
  xend <= Z.of_nat (length x) -> xend <= Z.of_nat (length y) ->
  xend < Int32.int_max ->
  range x xstart xend ≡ₚ range y xstart xend ->
  exists x' y',
    returns (fun fuel => b_insertionsort fuel x xstart xend) x' /\
    returns (fun fuel => b_insertionsort fuel y xstart xend) y' /\
    range x' xstart xend = range y' xstart xend.
Proof.
  intros H1 H2 Hx Hy H4 Hp.
  destruct (b_insertionsort_on_call (fun v : Z => v) x xstart xend)
    as (x' & Hrx & _ & Ex & _); try lia.
  destruct (b_insertionsort_on_call (fun v : Z => v) y xstart xend)
    as (y' & Hry & _ & Ey & _); try lia.
  exists x', y'. split; [exact Hrx |]. split; [exact Hry |].
  rewrite Ex, Ey.
  assert (Hs : forall l : list Z, StronglySorted Z.le (isort (val_lt (fun v : Z => v)) l)).
  { intros l. apply StronglySorted_impl with (ord_le (val_lt (fun v : Z => v))).
    - unfold ord_le, val_lt. lia.
    - apply isort_StronglySorted; [apply val_lt_asym | apply val_le_trans]. }
  apply (StronglySorted_unique Z.le); [apply Hs | apply Hs |].
  unfold isort. rewrite !isort_from_perm. exact Hp.
Qed.

Lemma b_insertionsort_canonical_witness :
  exists x' y',
    returns (fun fuel => b_insertionsort fuel [5; 3; 9; 1; 3; 7] 2 5) x' /\
    returns (fun fuel => b_insertionsort fuel [0; 1; 3; 3; 9] 2 5) y' /\
    range x' 2 5 = range y' 2 5.
Proof.
  apply (b_insertionsort_canonical [5; 3; 9; 1; 3; 7] [0; 1; 3; 3; 9] 2 5);
    [lia | lia | simpl; lia | simpl; lia | unfold Int32.int_max; lia |].
  apply (bool_decide_unpack _). vm_compute. exact I.
Defined.

(** X9.  [insertionsort] on a range that is already ordered by the two keys
    (each entry's keys at most those of the next) returns the array as it
    was. *)
Theorem insertionsort_idempotent (x keyA keyB : list Z) (xstart xend : Z) :
  1 <= xstart -> xstart <= xend -> xend <= Z.of_nat (length x) ->
  xend < Int32.int_max ->
  Forall (key_index keyA keyB) (range x xstart xend) ->
  Sorted (fun v w => key_at keyA v < key_at keyA w \/
                     (key_at keyA v = key_at keyA w /\
                      key_at keyB v <= key_at keyB w))
         (range x xstart xend) ->
  returns (fun fuel => insertionsort fuel (mk_mem x keyA keyB) xstart xend)
          (mk_mem x keyA keyB).
Proof.
  intros H1 H2 H3 H4 HF Hs.
  destruct (range_split x xstart xend) as (Hx & Hpre & Hmid); try lia.
  pose proof (insertionsort_isort keyA keyB (before x xstart) (range x xstart xend)
                (after x xend) xstart xend) as Hrun.
  unfold isort in Hrun. rewrite isort_from_sorted in Hrun.
  - rewrite app_nil_l, <- Hx in Hrun.
    apply Hrun; try assumption; unfold Int32.int_max in *; lia.
  - simpl. eapply StronglySorted_impl; [intros a b; apply key_le_iff |].
    apply Sorted.Sorted_StronglySorted; [| exact Hs].
    intros a b c Hab Hbc. lia.
Qed.

Lemma insertionsort_idempotent_witness :
  returns (fun fuel =>
             insertionsort fuel (mk_mem [1; 3; 2; 4; 1] [7; 7; 5; 7] [2; 1; 0; 1]) 2 5)
          (mk_mem [1; 3; 2; 4; 1] [7; 7; 5; 7] [2; 1; 0; 1]).
Proof.
  apply (insertionsort_idempotent [1; 3; 2; 4; 1] [7; 7; 5; 7] [2; 1; 0; 1] 2 5);
    [lia | lia | simpl; lia | unfold Int32.int_max; lia
    | apply (bool_decide_unpack _); vm_compute; exact I |].
  change (Sorted (fun v w =>
                    key_at [7; 7; 5; 7] v < key_at [7; 7; 5; 7] w \/
                    (key_at [7; 7; 5; 7] v = key_at [7; 7; 5; 7] w /\
                     key_at [2; 1; 0; 1] v <= key_at [2; 1; 0; 1] w))
                 [3; 2; 4; 1]).
  repeat constructor; vm_compute; intuition congruence.
Defined.

(** X10.  When the first comparison vector holds each entry's own value
    ([keyA[v - 1] = v] for the entries of the range), [insertionsort]
    returns the array that [b_insertionsort] returns, whatever the second
    vector holds. *)
Theorem insertionsort_identity_keys (x keyA keyB : list Z) (xstart xend : Z) :
  1 <= xstart -> xstart <= xend -> xend <= Z.of_nat (length x) ->
  xend < Int32.int_max ->
  Forall (key_index keyA keyB) (range x xstart xend) ->
  Forall (fun v => key_at keyA v = v) (range x xstart xend) ->
  exists x',
    returns (fun fuel => insertionsort fuel (mk_mem x keyA keyB) xstart xend)
            (mk_mem x' keyA keyB) /\
    returns (fun fuel => b_insertionsort fuel x xstart xend) x'.
Proof.
  intros H1 H2 H3 H4 HF Hid. eexists. split.
  - apply insertionsort_returns; try assumption; lia.
  - replace (isort (key_lt keyA keyB) (range x xstart xend))
      with (isort (val_lt (fun v : Z => v)) (range x xstart xend)).
    + apply (b_insertionsort_on_returns (fun v : Z => v)); try assumption; lia.
    + apply isort_from_ext. simpl. intros a b Ha Hb.
      rewrite Forall_forall in Hid.
      pose proof (Hid a Ha) as Ea. pose proof (Hid b Hb) as Eb.
      unfold val_lt, key_lt. rewrite Ea, Eb.
      destruct (Z.eqb_spec a b) as [-> | Hne]; lia.
Qed.

Lemma insertionsort_identity_keys_witness :
  exists x',
    returns (fun fuel =>
               insertionsort fuel (mk_mem [3; 1; 2; 3] [1; 2; 3] [5; 0; 9]) 1 4)
            (mk_mem x' [1; 2; 3] [5; 0; 9]) /\
    returns (fun fuel => b_insertionsort fuel [3; 1; 2; 3] 1 4) x'.
Proof.
  apply (insertionsort_identity_keys [3; 1; 2; 3] [1; 2; 3] [5; 0; 9] 1 4);
    [lia | lia | simpl; lia | unfold Int32.int_max; lia
    | apply (bool_decide_unpack _); vm_compute; exact I
    | apply (bool_decide_unpack _); vm_compute; exact I].
Defined.

(** X11.  The second comparison vector only breaks ties: when the entries
    of the range have pairwise different first keys, [insertionsort]
    returns the same array for any two second vectors. *)
Theorem insertionsort_tie_break_only (x keyA keyB keyB' : list Z) (xstart xend : Z) :
  1 <= xstart -> xstart <= xend -> xend <= Z.of_nat (length x) ->
  xend < Int32.int_max ->
  Forall (key_index keyA keyB) (range x xstart xend) ->
  Forall (key_index keyA keyB') (range x xstart xend) ->
  (forall a b, a ∈ range x xstart xend -> b ∈ range x xstart xend ->
               key_at keyA a = key_at keyA b -> a = b) ->
  exists x',
    returns (fun fuel => insertionsort fuel (mk_mem x keyA keyB) xstart xend)
            (mk_mem x' keyA keyB) /\
    returns (fun fuel => insertionsort fuel (mk_mem x keyA keyB') xstart xend)
            (mk_mem x' keyA keyB').
Proof.
  intros H1 H2 H3 H4 HF HF' Hinj. eexists. split.
  - apply insertionsort_returns; try assumption; lia.
  - replace (isort (key_lt keyA keyB) (range x xstart xend))
      with (isort (key_lt keyA keyB') (range x xstart xend)).
    + apply insertionsort_returns; try assumption; lia.
    + apply isort_from_ext. simpl. intros a b Ha Hb. unfold key_lt.
      destruct (Z.eqb_spec (key_at keyA a) (key_at keyA b)) as [E | Hne];
        [| reflexivity].
      rewrite (Hinj a b Ha Hb E). rewrite !Z.ltb_irrefl. reflexivity.
Qed.

Lemma insertionsort_tie_break_only_witness :
  exists x',
    returns (fun fuel =>
               insertionsort fuel (mk_mem [3; 1; 2; 3] [4; 9; 6] [5; 0; 9]) 1 4)
            (mk_mem x' [4; 9; 6] [5; 0; 9]) /\
    returns (fun fuel =>
               insertionsort fuel (mk_mem [3; 1; 2; 3] [4; 9; 6] [1; 1; 1]) 1 4)
            (mk_mem x' [4; 9; 6] [1; 1; 1]).
Proof.
  apply (insertionsort_tie_break_only [3; 1; 2; 3] [4; 9; 6] [5; 0; 9] [1; 1; 1] 1 4);
    [lia | lia | simpl; lia | unfold Int32.int_max; lia
    | apply (bool_decide_unpack _); vm_compute; exact I
    | apply (bool_decide_unpack _); vm_compute; exact I |].
  intros a b Ha Hb.
  change (range [3; 1; 2; 3] 1 4) with [3; 1; 2; 3] in Ha, Hb.
  repeat (apply elem_of_cons in Ha as [-> | Ha]);
    try (apply elem_of_nil in Ha; contradiction);
    repeat (apply elem_of_cons in Hb as [-> | Hb]);
    try (apply elem_of_nil in Hb; contradiction);
    vm_compute; congruence.
Defined.

(** X12.  [b_insertionsort] commutes with a map that keeps the order of the
    values, such as the shift of all row indices by a constant: sorting the
    mapped array returns the mapped result of sorting the array. *)
Theorem b_insertionsort_monotone_map (f : Z -> Z) (x : list Z) (xstart xend : Z) :
  (forall a b, (f a <? f b) = (a <? b)) ->
  1 <= xstart -> xstart <= xend -> xend <= Z.of_nat (length x) ->
  xend < Int32.int_max ->
  exists x',
    returns (fun fuel => b_insertionsort fuel x xstart xend) x' /\
    returns (fun fuel => b_insertionsort fuel (f <$> x) xstart xend) (f <$> x').
Proof.
  intros Hf H1 H2 H3 H4. eexists. split.
  - apply (b_insertionsort_on_returns (fun v : Z => v)); try assumption; lia.
  - replace (isort (val_lt (fun v : Z => v)) (range x xstart xend))
      with (isort (val_lt f) (range x xstart xend)).
    + destruct (b_insertionsort_on_returns f x xstart xend) as [n Hn];
        try assumption; try lia.
      exists n. intros fuel Hfuel.
      rewrite b_insertionsort_erase, Hn by exact Hfuel. reflexivity.
    + apply isort_from_ext. intros a b _ _. apply Hf.
Qed.

Lemma b_insertionsort_monotone_map_witness :
  exists x',
    returns (fun fuel => b_insertionsort fuel [2; 0; 1; 2] 1 4) x' /\
    returns (fun fuel =>
               b_insertionsort fuel ((fun r => r + 3) <$> [2; 0; 1; 2]) 1 4)
            ((fun r => r + 3) <$> x').
Proof.
  apply (b_insertionsort_monotone_map (fun r => r + 3) [2; 0; 1; 2] 1 4);
    [intros a b; lia | lia | lia | simpl; lia | unfold Int32.int_max; lia].
Defined.

(** X13.  Calls of [b_insertionsort] on two ranges that do not overlap can
    be made in either order: both orders return the same array. *)
Theorem b_insertionsort_disjoint_commute (x : list Z) (s1 e1 s2 e2 : Z) :
  1 <= s1 -> s1 <= e1 -> e1 < s2 -> s2 <= e2 ->
  e2 <= Z.of_nat (length x) -> e2 < Int32.int_max ->
  exists xa xb y,
    returns (fun fuel => b_insertionsort fuel x s1 e1) xa /\
    returns (fun fuel => b_insertionsort fuel xa s2 e2) y /\
    returns (fun fuel => b_insertionsort fuel x s2 e2) xb /\
    returns (fun fuel => b_insertionsort fuel xb s1 e1) y.
Proof.
  intros H1 H2 H3 H4 H5 H6.
  destruct (split_length x (Z.to_nat (s1 - 1))) as (pre & r1 & -> & Lpre); [lia |].
  rewrite length_app in H5.
  destruct (split_length r1 (Z.to_nat (e1 + 1 - s1))) as (a & r2 & -> & La); [lia |].
  rewrite length_app in H5.
  destruct (split_length r2 (Z.to_nat (s2 - 1 - e1))) as (gap & r3 & -> & Lg); [lia |].
  rewrite length_app in H5.
  destruct (split_length r3 (Z.to_nat (e2 + 1 - s2))) as (b & post & -> & Lb); [lia |].
  exists (pre ++ isort Z.ltb a ++ gap ++ b ++ post),
         (pre ++ a ++ gap ++ isort Z.ltb b ++ post),
         (pre ++ isort Z.ltb a ++ gap ++ isort Z.ltb b ++ post).
  split; [| split; [| split]].
  - apply b_insertionsort_isort; unfold Int32.int_max in *; lia.
  - replace (pre ++ isort Z.ltb a ++ gap ++ b ++ post)
      with ((pre ++ isort Z.ltb a ++ gap) ++ b ++ post)
      by (rewrite <- !app_assoc; reflexivity).
    replace (pre ++ isort Z.ltb a ++ gap ++ isort Z.ltb b ++ post)
      with ((pre ++ isort Z.ltb a ++ gap) ++ isort Z.ltb b ++ post)
      by (rewrite <- !app_assoc; reflexivity).
    apply b_insertionsort_isort;
      rewrite ?length_app, ?length_isort; unfold Int32.int_max in *; lia.
  - replace (pre ++ a ++ gap ++ b ++ post)
      with ((pre ++ a ++ gap) ++ b ++ post)
      by (rewrite <- !app_assoc; reflexivity).
    replace (pre ++ a ++ gap ++ isort Z.ltb b ++ post)
      with ((pre ++ a ++ gap) ++ isort Z.ltb b ++ post)
      by (rewrite <- !app_assoc; reflexivity).
    apply b_insertionsort_isort;
      rewrite ?length_app; unfold Int32.int_max in *; lia.
  - apply b_insertionsort_isort; unfold Int32.int_max in *; lia.
Qed.

Lemma b_insertionsort_disjoint_commute_witness :
  exists xa xb y,
    returns (fun fuel => b_insertionsort fuel [2; 0; 9; 4; 3; 1] 1 2) xa /\
    returns (fun fuel => b_insertionsort fuel xa 4 6) y /\
    returns (fun fuel => b_insertionsort fuel [2; 0; 9; 4; 3; 1] 4 6) xb /\
    returns (fun fuel => b_insertionsort fuel xb 1 2) y.
Proof.
  apply (b_insertionsort_disjoint_commute [2; 0; 9; 4; 3; 1] 1 2 4 6);
    [lia | lia | lia | lia | simpl; lia | unfold Int32.int_max; lia].
Defined.

(** ** The entries of the range must index the first comparison vector *)

Lemma load_lookup {A : Type} (a : list A) (i : Z) (v : A) :
  load a i = Done v -> a !! Z.to_nat i = Some v.
Proof.
  unfold load. destruct (0 <=? i); [| discriminate].
  destruct (a !! Z.to_nat i); [| discriminate]. congruence.
Qed.

Lemma store_insert {A : Type} (a a' : list A) (i : Z) (v : A) :
  store a i v = Done a' -> a' = <[Z.to_nat i := v]> a /\ 0 <= i.
Proof.
  unfold store.
  destruct ((0 <=? i) && (i <? Z.of_nat (length a))) eqn:E; [| discriminate].
  intros [= <-]. split; [reflexivity | lia].
Qed.

(** A comparison that returns has read both first keys. *)
Lemma insertionsort_cmp_Done m xc idx b :
  insertionsort_cmp m xc idx = Done b ->
  exists a w a',
    load (f1 (env0 m)) xc = Done a /\
    load (x_data m) idx = Done w /\
    load (f1 (env0 m)) (Int32.sub w 1) = Done a'.
Proof.
  unfold insertionsort_cmp. intros H.
  destruct (load (f1 (env0 m)) xc) as [a| |] eqn:E1;
    cbn [mbind outcome_bind] in H; try discriminate.
  destruct (load (x_data m) idx) as [w| |] eqn:E2;
    cbn [mbind outcome_bind] in H; try discriminate.
  destruct (load (f1 (env0 m)) (Int32.sub w 1)) as [a'| |] eqn:E3;
    cbn [mbind outcome_bind] in H; try discriminate.
  exists a, w, a'. auto.
Qed.

(** The [while] loop of [insertionsort] moves the hole to the left, writes
    only up to the position it started from, and leaves the comparison
    vectors alone. *)
Lemma insertionsort_while_frame fuel : forall m xstart xc idx exitg1 m1 idx',
  1 <= xstart -> -1 <= idx -> idx < Int32.int_max ->
  insertionsort_while fuel m xstart xc idx exitg1 = Done (m1, idx') ->
  -1 <= idx' /\ idx' <= idx /\ env0 m1 = env0 m /\ env1 m1 = env1 m /\
  length (x_data m1) = length (x_data m) /\
  forall j : nat, idx + 1 < Z.of_nat j -> x_data m1 !! j = x_data m !! j.
Proof.
  induction fuel as [|fuel IH]; intros m xstart xc idx exitg1 m1 idx' H1 Hlo Hhi H;
    [discriminate |].
  rewrite insertionsort_while_S in H.
  assert (Hadd : Int32.add idx 1 = idx + 1).
  { apply wrap_in_range.
    unfold Int32.in_range, Int32.int_min, Int32.int_max in *. lia. }
  rewrite Hadd in H.
  destruct (negb exitg1 && (xstart <=? idx + 1)) eqn:C.
  2:{ injection H as <- <-. repeat split; auto; lia. }
  apply andb_true_iff in C as [_ C]. apply Z.leb_le in C.
  destruct (insertionsort_cmp m xc idx) as [[|]| |];
    cbn [mbind outcome_bind] in H; try discriminate.
  - destruct (load (x_data m) idx) as [v| |];
      cbn [mbind outcome_bind] in H; try discriminate.
    destruct (store (x_data m) (idx + 1) v) as [x'| |] eqn:St;
      cbn [mbind outcome_bind] in H; try discriminate.
    assert (Hsub : Int32.sub idx 1 = idx - 1).
    { apply wrap_in_range.
      unfold Int32.in_range, Int32.int_min, Int32.int_max in *. lia. }
    rewrite Hsub in H.
    apply IH in H as (L & U & E0 & E1 & Len & Fr); [| lia | lia | lia].
    apply store_insert in St as [-> _].
    repeat split; auto; try lia.
    + rewrite Len. simpl. apply length_insert.
    + intros j Hj. rewrite Fr by lia. simpl.
      apply list_lookup_insert_ne. lia.
  - apply IH in H as (L & U & E0 & E1 & Len & Fr); auto.
    repeat split; auto.
Qed.

(** A run of the [for] loop that returns has read the first key of every
    entry from position [k] on. *)
Lemma insertionsort_for_reads_keys fuel : forall m xstart xend k m',
  1 <= xstart -> xstart < k -> xend < Int32.int_max ->
  insertionsort_for fuel m xstart xend k = Done m' ->
  forall p v, k <= p -> p <= xend ->
    x_data m !! Z.to_nat (p - 1) = Some v ->
    exists a, load (f1 (env0 m)) (Int32.sub v 1) = Done a.
Proof.
  induction fuel as [|fuel IH]; intros m xstart xend k m' H1 Hk Hmax H p v Hp1 Hp2 Hv;
    [discriminate |].
  rewrite insertionsort_for_S in H.
  rewrite (proj2 (Z.leb_le _ _)) in H by lia.
  assert (Hsub : Int32.sub k 1 = k - 1).
  { apply wrap_in_range.
    unfold Int32.in_range, Int32.int_min, Int32.int_max in *. lia. }
  assert (Hsub2 : Int32.sub k 2 = k - 2).
  { apply wrap_in_range.
    unfold Int32.in_range, Int32.int_min, Int32.int_max in *. lia. }
  assert (Hadd : Int32.add k 1 = k + 1).
  { apply wrap_in_range.
    unfold Int32.in_range, Int32.int_min, Int32.int_max in *. lia. }
  rewrite Hsub, Hsub2, Hadd in H.
  destruct (load (x_data m) (k - 1)) as [v0| |] eqn:L0;
    cbn [mbind outcome_bind] in H; try discriminate.
  cbv zeta in H.
  destruct (insertionsort_while fuel m xstart (Int32.sub v0 1) (k - 2) false)
    as [[m1 idx']| |] eqn:W; cbn [mbind outcome_bind] in H; try discriminate.
  pose proof (insertionsort_while_frame fuel m xstart (Int32.sub v0 1) (k - 2)
                false m1 idx' H1 ltac:(lia)
                ltac:(unfold Int32.int_max in *; lia) W)
    as (L & U & E0 & E1 & _ & Fr).
  assert (Hadd' : Int32.add idx' 1 = idx' + 1).
  { apply wrap_in_range.
    unfold Int32.in_range, Int32.int_min, Int32.int_max in *. lia. }
  rewrite Hadd' in H.
  destruct (store (x_data m1) (idx' + 1) (Int32.add (Int32.sub v0 1) 1))
    as [x2| |] eqn:St; cbn [mbind outcome_bind] in H; try discriminate.
  destruct (decide (p = k)) as [-> | Hne].
  - apply load_lookup in L0. rewrite L0 in Hv. injection Hv as <-.
    destruct fuel as [|fuel']; [discriminate |].
    rewrite insertionsort_while_S in W.
    replace (Int32.add (k - 2) 1) with (k - 1) in W
      by (symmetry; unfold Int32.add; replace (k - 2 + 1) with (k - 1) by lia;
          apply wrap_in_range;
          unfold Int32.in_range, Int32.int_min, Int32.int_max in *; lia).
    rewrite (proj2 (Z.leb_le _ _)) in W by lia. simpl negb in W. cbv iota in W.
    cbn [andb] in W.
    destruct (insertionsort_cmp m (Int32.sub v0 1) (k - 2)) as [b| |] eqn:Cm;
      cbn [mbind outcome_bind] in W; try discriminate.
    apply insertionsort_cmp_Done in Cm as (a & _ & _ & La & _). eauto.
  - apply store_insert in St as [-> _].
    rewrite <- E0.
    apply (IH (set_x m1 (<[Z.to_nat (idx' + 1) := Int32.add (Int32.sub v0 1) 1]>
                           (x_data m1))) xstart xend (k + 1) m'
              H1 ltac:(lia) Hmax H p v ltac:(lia) Hp2).
    simpl. rewrite list_lookup_insert_ne by lia.
    rewrite Fr by lia. exact Hv.
Qed.

Lemma load_key_outside (key : list Z) (v : Z) :
  Int32.in_range v -> Z.of_nat (length key) <= Int32.int_max ->
  ~ (1 <= v <= Z.of_nat (length key)) ->
  load key (Int32.sub v 1) = Fault.
Proof.
  intros Hv Hlen Hout.
  destruct (decide (v = Int32.int_min)) as [-> | Hne].
  - change (Int32.sub Int32.int_min 1) with Int32.int_max.
    apply load_beyond. exact Hlen.
  - assert (Hsub : Int32.sub v 1 = v - 1).
    { apply wrap_in_range.
      unfold Int32.in_range, Int32.int_min, Int32.int_max in *. lia. }
    rewrite Hsub. destruct (decide (v <= 0)).
    + apply load_negative. lia.
    + apply load_beyond. lia.
Qed.

(** A range that holds an entry outside the first comparison vector yields
    no result. *)
Lemma insertionsort_key_outside_no_result (x keyA keyB : list Z)
    (xstart xend p v : Z) :
  1 <= xstart -> xstart < xend -> xend < Int32.int_max ->
  xstart <= p -> p <= xend ->
  x !! Z.to_nat (p - 1) = Some v ->
  Int32.in_range v -> Z.of_nat (length keyA) <= Int32.int_max ->
  ~ (1 <= v <= Z.of_nat (length keyA)) ->
  forall fuel m', insertionsort fuel (mk_mem x keyA keyB) xstart xend <> Done m'.
Proof.
  intros H1 Hlt Hmax Hp1 Hp2 Hv Hr Hlen Hout fuel m' H.
  pose proof (load_key_outside keyA v Hr Hlen Hout) as Hbad.
  assert (Hadd : Int32.add xstart 1 = xstart + 1).
  { apply wrap_in_range.
    unfold Int32.in_range, Int32.int_min, Int32.int_max in *. lia. }
  unfold insertionsort in H. cbv zeta in H. rewrite Hadd in H.
  destruct (decide (p = xstart)) as [-> | Hne].
  - destruct fuel as [|fuel]; [discriminate |].
    rewrite insertionsort_for_S in H.
    rewrite (proj2 (Z.leb_le _ _)) in H by lia.
    destruct (load (x_data (mk_mem x keyA keyB)) (Int32.sub (xstart + 1) 1))
      as [v0| |]; cbn [mbind outcome_bind] in H; try discriminate.
    cbv zeta in H.
    replace (Int32.sub (xstart + 1) 2) with (xstart - 1) in H
      by (symmetry; unfold Int32.sub;
          replace (xstart + 1 - 2) with (xstart - 1) by lia;
          apply wrap_in_range;
          unfold Int32.in_range, Int32.int_min, Int32.int_max in *; lia).
    destruct fuel as [|fuel]; [discriminate |].
    rewrite insertionsort_while_S in H.
    replace (Int32.add (xstart - 1) 1) with xstart in H
      by (symmetry; unfold Int32.add;
          replace (xstart - 1 + 1) with xstart by lia;
          apply wrap_in_range;
          unfold Int32.in_range, Int32.int_min, Int32.int_max in *; lia).
    rewrite (proj2 (Z.leb_le _ _)) in H by lia. cbn [negb andb] in H.
    destruct (insertionsort_cmp (mk_mem x keyA keyB) (Int32.sub v0 1) (xstart - 1))
      as [b| |] eqn:Cm; cbn [mbind outcome_bind] in H; try discriminate.
    apply insertionsort_cmp_Done in Cm as (_ & w & a' & _ & Lw & La).
    apply load_lookup in Lw. simpl in Lw, La.
    rewrite Hv in Lw. injection Lw as <-. congruence.
  - destruct (insertionsort_for_reads_keys fuel (mk_mem x keyA keyB) xstart xend
                (xstart + 1) m' H1 ltac:(lia) Hmax H p v ltac:(lia) Hp2 Hv)
      as [a La].
    simpl in La. congruence.
Qed.

(** A run of the [for] loop that returns has read [x] up to [xend]. *)
Lemma insertionsort_for_within fuel : forall m xstart xend k m',
  1 <= xstart -> xstart < k -> k <= xend -> xend < Int32.int_max ->
  insertionsort_for fuel m xstart xend k = Done m' ->
  xend <= Z.of_nat (length (x_data m)).
Proof.
  induction fuel as [|fuel IH]; intros m xstart xend k m' H1 Hk Hke Hmax H;
    [discriminate |].
  rewrite insertionsort_for_S in H.
  rewrite (proj2 (Z.leb_le _ _)) in H by lia.
  assert (Hsub : Int32.sub k 1 = k - 1).
  { apply wrap_in_range.
    unfold Int32.in_range, Int32.int_min, Int32.int_max in *. lia. }
  assert (Hsub2 : Int32.sub k 2 = k - 2).
  { apply wrap_in_range.
    unfold Int32.in_range, Int32.int_min, Int32.int_max in *. lia. }
  assert (Hadd : Int32.add k 1 = k + 1).
  { apply wrap_in_range.
    unfold Int32.in_range, Int32.int_min, Int32.int_max in *. lia. }
  rewrite Hsub, Hsub2, Hadd in H.
  destruct (load (x_data m) (k - 1)) as [v0| |] eqn:L0;
    cbn [mbind outcome_bind] in H; try discriminate.
  cbv zeta in H.
  destruct (insertionsort_while fuel m xstart (Int32.sub v0 1) (k - 2) false)
    as [[m1 idx']| |] eqn:W; cbn [mbind outcome_bind] in H; try discriminate.
  pose proof (insertionsort_while_frame fuel m xstart (Int32.sub v0 1) (k - 2)
                false m1 idx' H1 ltac:(lia)
                ltac:(unfold Int32.int_max in *; lia) W)
    as (_ & _ & _ & _ & Len & _).
  destruct (store (x_data m1) (Int32.add idx' 1) (Int32.add (Int32.sub v0 1) 1))
    as [x2| |] eqn:St; cbn [mbind outcome_bind] in H; try discriminate.
  apply store_insert in St as [-> _].
  destruct (decide (k = xend)) as [-> | Hne].
  - apply load_lookup, lookup_lt_Some in L0. lia.
  - apply IH in H; try lia. simpl in H.
    rewrite length_insert, Len in H. exact H.
Qed.

(** A range that ends behind the array yields no result. *)
Lemma insertionsort_beyond_no_result (m : sort_mem) (xstart xend : Z) :
  1 <= xstart -> xstart < xend -> xend < Int32.int_max ->
  Z.of_nat (length (x_data m)) < xend ->
  forall fuel m', insertionsort fuel m xstart xend <> Done m'.
Proof.
  intros H1 Hlt Hmax Hlen fuel m' H.
  assert (Hadd : Int32.add xstart 1 = xstart + 1).
  { apply wrap_in_range.
    unfold Int32.in_range, Int32.int_min, Int32.int_max in *. lia. }
  unfold insertionsort in H. cbv zeta in H. rewrite Hadd in H.
  apply insertionsort_for_within in H; lia.
Qed.

(** ** Termination

    Neither loop can run forever: [idx] falls until the test fails or an
    access leaves the array, and [k] rises to [xend]. *)

Lemma store_not_Timeout {A : Type} (a : list A) (i : Z) (v : A) :
  store a i v <> Timeout.
Proof.
  unfold store. destruct ((0 <=? i) && (i <? Z.of_nat (length a))); discriminate.
Qed.

Lemma insertionsort_cmp_not_Timeout m xc idx :
  insertionsort_cmp m xc idx <> Timeout.
Proof.
  unfold insertionsort_cmp.
  repeat match goal with
  | |- context [load ?a ?i] =>
      let E := fresh "E" in
      destruct (load a i) eqn:E; cbn [mbind outcome_bind];
      [| discriminate | exfalso; exact (load_not_Timeout _ _ E)]
  | |- context [if ?b then _ else _] => destruct b
  | |- Done _ <> Timeout => discriminate
  end.
Qed.

Section TaggedTermination.
Context {T : Type} (val : T -> Z).

Lemma b_insertionsort_while_on_terminates fuel : forall (x : list T) xstart xc idx,
  0 <= idx -> idx <= Int32.int_max -> (Z.to_nat idx < fuel)%nat ->
  b_insertionsort_while_on val fuel x xstart xc idx <> Timeout.
Proof.
  induction fuel as [|fuel IH]; intros x xstart xc idx H0 Hmax Hf; [lia |].
  rewrite b_insertionsort_while_on_S.
  destruct (xstart <=? idx); [| discriminate].
  assert (Hsub : Int32.sub idx 1 = idx - 1).
  { apply wrap_in_range.
    unfold Int32.in_range, Int32.int_min, Int32.int_max in *. lia. }
  rewrite Hsub.
  destruct (load x (idx - 1)) as [v| |] eqn:L; cbn [mbind outcome_bind];
    [| discriminate | exfalso; exact (load_not_Timeout _ _ L)].
  destruct (val xc <? val v); [| discriminate].
  destruct (store x idx v) as [x'| |] eqn:St; cbn [mbind outcome_bind];
    [| discriminate | exfalso; exact (store_not_Timeout _ _ _ St)].
  destruct (decide (idx = 0)) as [-> | Hne].
  { rewrite load_negative in L by lia. discriminate. }
  apply IH; lia.
Qed.

Lemma b_insertionsort_for_on_terminates fuel : forall (x : list T) xstart xend k,
  Int32.int_min < k -> xend < Int32.int_max ->
  (Z.to_nat (xend + 1 - k) + Z.to_nat xend < fuel)%nat ->
  b_insertionsort_for_on val fuel x xstart xend k <> Timeout.
Proof.
  induction fuel as [|fuel IH]; intros x xstart xend k Hk Hmax Hf; [lia |].
  rewrite b_insertionsort_for_on_S.
  destruct (k <=? xend) eqn:Hle; [| discriminate].
  apply Z.leb_le in Hle.
  assert (Hsub : Int32.sub k 1 = k - 1).
  { apply wrap_in_range.
    unfold Int32.in_range, Int32.int_min, Int32.int_max in *. lia. }
  assert (Hadd : Int32.add k 1 = k + 1).
  { apply wrap_in_range.
    unfold Int32.in_range, Int32.int_min, Int32.int_max in *. lia. }
  rewrite Hsub, Hadd.
  destruct (load x (k - 1)) as [xc| |] eqn:L; cbn [mbind outcome_bind];
    [| discriminate | exfalso; exact (load_not_Timeout _ _ L)].
  assert (1 <= k).
  { destruct (decide (1 <= k)); [assumption |].
    rewrite load_negative in L by lia. discriminate. }
  destruct (b_insertionsort_while_on val fuel x xstart xc (k - 1))
    as [[x1 idx]| |] eqn:W; cbn [mbind outcome_bind]; [| discriminate |].
  - destruct (store x1 idx xc) as [x2| |] eqn:St; cbn [mbind outcome_bind];
      [| discriminate | exfalso; exact (store_not_Timeout _ _ _ St)].
    apply IH; lia.
  - exfalso. revert W. apply b_insertionsort_while_on_terminates; lia.
Qed.

End TaggedTermination.

Lemma insertionsort_while_terminates fuel : forall m xstart xc idx exitg1,
  -1 <= idx -> idx < Int32.int_max -> (Z.to_nat (idx + 1) + 1 < fuel)%nat ->
  insertionsort_while fuel m xstart xc idx exitg1 <> Timeout.
Proof.
  induction fuel as [|fuel IH]; intros m xstart xc idx exitg1 H0 Hmax Hf; [lia |].
  rewrite insertionsort_while_S.
  destruct (negb exitg1 && (xstart <=? Int32.add idx 1)); [| discriminate].
  destruct (insertionsort_cmp m xc idx) as [b| |] eqn:C; cbn [mbind outcome_bind];
    [| discriminate | exfalso; exact (insertionsort_cmp_not_Timeout _ _ _ C)].
  destruct b.
  - destruct (load (x_data m) idx) as [v| |] eqn:L; cbn [mbind outcome_bind];
      [| discriminate | exfalso; exact (load_not_Timeout _ _ L)].
    destruct (store (x_data m) (Int32.add idx 1) v) as [x'| |] eqn:St;
      cbn [mbind outcome_bind];
      [| discriminate | exfalso; exact (store_not_Timeout _ _ _ St)].
    assert (0 <= idx).
    { destruct (decide (0 <= idx)); [assumption |].
      rewrite load_negative in L by lia. discriminate. }
    assert (Hsub : Int32.sub idx 1 = idx - 1).
    { apply wrap_in_range.
      unfold Int32.in_range, Int32.int_min, Int32.int_max in *. lia. }
    rewrite Hsub. apply IH; lia.
  - destruct fuel as [|fuel]; [lia |].
    rewrite insertionsort_while_S. discriminate.
Qed.

Lemma insertionsort_for_terminates fuel : forall m xstart xend k,
  Int32.int_min < k -> xend < Int32.int_max ->
  (Z.to_nat (xend + 1 - k) + Z.to_nat xend + 1 < fuel)%nat ->
  insertionsort_for fuel m xstart xend k <> Timeout.
Proof.
  induction fuel as [|fuel IH]; intros m xstart xend k Hk Hmax Hf; [lia |].
  rewrite insertionsort_for_S.
  destruct (k <=? xend) eqn:Hle; [| discriminate].
  apply Z.leb_le in Hle.
  assert (Hadd : Int32.add k 1 = k + 1).
  { apply wrap_in_range.
    unfold Int32.in_range, Int32.int_min, Int32.int_max in *. lia. }
  assert (Hsub : Int32.sub k 1 = k - 1).
  { apply wrap_in_range.
    unfold Int32.in_range, Int32.int_min, Int32.int_max in *. lia. }
  rewrite Hsub, Hadd.
  destruct (load (x_data m) (k - 1)) as [v| |] eqn:L; cbn [mbind outcome_bind];
    [| discriminate | exfalso; exact (load_not_Timeout _ _ L)].
  assert (1 <= k).
  { destruct (decide (1 <= k)); [assumption |].
    rewrite load_negative in L by lia. discriminate. }
  assert (Hsub2 : Int32.sub k 2 = k - 2).
  { apply wrap_in_range.
    unfold Int32.in_range, Int32.int_min, Int32.int_max in *. lia. }
  cbv zeta. rewrite Hsub2.
  destruct (insertionsort_while fuel m xstart (Int32.sub v 1) (k - 2) false)
    as [[m1 idx]| |] eqn:W; cbn [mbind outcome_bind]; [| discriminate |].
  - destruct (store (x_data m1) (Int32.add idx 1) (Int32.add (Int32.sub v 1) 1))
      as [x2| |] eqn:St; cbn [mbind outcome_bind];
      [| discriminate | exfalso; exact (store_not_Timeout _ _ _ St)].
    apply IH; lia.
  - exfalso. revert W. apply insertionsort_while_terminates; lia.
Qed.

Lemma b_insertionsort_terminates (x : list Z) (xstart xend : Z) (fuel : nat) :
  Int32.in_range xstart -> xstart < Int32.int_max -> xend < Int32.int_max ->
  (2 * Z.to_nat xend + 3 <= fuel)%nat ->
  b_insertionsort fuel x xstart xend <> Timeout.
Proof.
  intros Hr Hs Hmax Hf.
  assert (Hadd : Int32.add xstart 1 = xstart + 1).
  { apply wrap_in_range.
    unfold Int32.in_range, Int32.int_min, Int32.int_max in *. lia. }
  assert (Hk : Int32.int_min < xstart + 1) by (destruct Hr; lia).
  cut (b_insertionsort_for_on (fun v : Z => v) fuel x xstart xend
         (Int32.add xstart 1) <> Timeout); [intros H; exact H |].
  rewrite Hadd.
  destruct (decide (1 <= xstart + 1)) as [Hpos | Hneg].
  - apply b_insertionsort_for_on_terminates; lia.
  - destruct fuel as [|fuel]; [lia |].
    rewrite b_insertionsort_for_on_S.
    destruct (xstart + 1 <=? xend); [| discriminate].
    replace (Int32.sub (xstart + 1) 1) with xstart
      by (symmetry; unfold Int32.sub;
          replace (xstart + 1 - 1) with xstart by lia;
          apply wrap_in_range; exact Hr).
    rewrite load_negative by lia. discriminate.
Qed.

Lemma insertionsort_terminates (m : sort_mem) (xstart xend : Z) (fuel : nat) :
  Int32.in_range xstart -> xstart < Int32.int_max -> xend < Int32.int_max ->
  (2 * Z.to_nat xend + 3 <= fuel)%nat ->
  insertionsort fuel m xstart xend <> Timeout.
Proof.
  intros Hr Hs Hmax Hf.
  assert (Hadd : Int32.add xstart 1 = xstart + 1).
  { apply wrap_in_range.
    unfold Int32.in_range, Int32.int_min, Int32.int_max in *. lia. }
  assert (Hk : Int32.int_min < xstart + 1) by (destruct Hr; lia).
  unfold insertionsort. cbv zeta. rewrite Hadd.
  destruct (decide (1 <= xstart + 1)) as [Hpos | Hneg].
  - apply insertionsort_for_terminates; lia.
  - destruct fuel as [|fuel]; [lia |].
    rewrite insertionsort_for_S.
    destruct (xstart + 1 <=? xend); [| discriminate].
    replace (Int32.sub (xstart + 1) 1) with xstart
      by (symmetry; unfold Int32.sub;
          replace (xstart + 1 - 1) with xstart by lia;
          apply wrap_in_range; exact Hr).
    rewrite load_negative by lia. discriminate.
Qed.

(** X14.  The entries must index the first comparison vector: when a range
    of at least two positions holds an entry that is not between 1 and the
    length of [keyA], [insertionsort] yields no result, and with a budget of
    twice [xend] plus three iterations it is seen to stop at an access
    outside an array. *)
Theorem insertionsort_needs_key_index (x keyA keyB : list Z) (xstart xend p v : Z) :
  1 <= xstart -> xstart < xend -> xend < Int32.int_max ->
  xstart <= p -> p <= xend ->
  x !! Z.to_nat (p - 1) = Some v ->
  Int32.in_range v -> Z.of_nat (length keyA) <= Int32.int_max ->
  ~ (1 <= v <= Z.of_nat (length keyA)) ->
  (forall fuel m',
     insertionsort fuel (mk_mem x keyA keyB) xstart xend <> Done m') /\
  (forall fuel, (2 * Z.to_nat xend + 3 <= fuel)%nat ->
     insertionsort fuel (mk_mem x keyA keyB) xstart xend = Fault).
Proof.
  intros H1 Hlt Hmax Hp1 Hp2 Hv Hr Hlen Hout.
  pose proof (insertionsort_key_outside_no_result x keyA keyB xstart xend p v
                H1 Hlt Hmax Hp1 Hp2 Hv Hr Hlen Hout) as Hno.
  split; [exact Hno |].
  intros fuel Hf.
  destruct (insertionsort fuel (mk_mem x keyA keyB) xstart xend) as [m'| |] eqn:E.
  - exfalso. exact (Hno fuel m' E).
  - reflexivity.
  - exfalso. revert E. apply insertionsort_terminates; [| lia | lia | exact Hf].
    unfold Int32.in_range, Int32.int_min, Int32.int_max in *. lia.
Qed.

Lemma insertionsort_needs_key_index_witness :
  (forall fuel m',
     insertionsort fuel (mk_mem [3; 1; 2; 5] [7; 7; 5; 7] [2; 1; 0; 1]) 1 4
       <> Done m') /\
  (forall fuel, (2 * Z.to_nat 4 + 3 <= fuel)%nat ->
     insertionsort fuel (mk_mem [3; 1; 2; 5] [7; 7; 5; 7] [2; 1; 0; 1]) 1 4
       = Fault).
Proof.
  apply (insertionsort_needs_key_index [3; 1; 2; 5] [7; 7; 5; 7] [2; 1; 0; 1] 1 4 4 5);
    [lia | lia | unfold Int32.int_max; lia | lia | lia | reflexivity
    | unfold Int32.in_range, Int32.int_min, Int32.int_max; lia
    | unfold Int32.int_max; simpl; lia | simpl; lia].
Defined.

(** X15.  [insertionsort] returns only on a range within the array: with
    [xend] behind the last element, and a range of at least two positions,
    it yields no result, and with a budget of twice [xend] plus three
    iterations it is seen to stop at an access outside an array. *)
Theorem insertionsort_end_beyond_array (m : sort_mem) (xstart xend : Z) :
  1 <= xstart -> xstart < xend -> xend < Int32.int_max ->
  Z.of_nat (length (x_data m)) < xend ->
  (forall fuel m', insertionsort fuel m xstart xend <> Done m') /\
  (forall fuel, (2 * Z.to_nat xend + 3 <= fuel)%nat ->
     insertionsort fuel m xstart xend = Fault).
Proof.
  intros H1 Hlt Hmax Hlen.
  pose proof (insertionsort_beyond_no_result m xstart xend H1 Hlt Hmax Hlen) as Hno.
  split; [exact Hno |].
  intros fuel Hf.
  destruct (insertionsort fuel m xstart xend) as [m'| |] eqn:E.
  - exfalso. exact (Hno fuel m' E).
  - reflexivity.
  - exfalso. revert E. apply insertionsort_terminates; [| lia | lia | exact Hf].
    unfold Int32.in_range, Int32.int_min, Int32.int_max in *. lia.
Qed.

Lemma insertionsort_end_beyond_array_witness :
  (forall fuel m',
     insertionsort fuel (mk_mem [3; 1; 2] [7; 7; 5] [2; 1; 0]) 1 4 <> Done m') /\
  (forall fuel, (2 * Z.to_nat 4 + 3 <= fuel)%nat ->
     insertionsort fuel (mk_mem [3; 1; 2] [7; 7; 5] [2; 1; 0]) 1 4 = Fault).
Proof.
  apply (insertionsort_end_beyond_array (mk_mem [3; 1; 2] [7; 7; 5] [2; 1; 0]) 1 4);
    [lia | lia | unfold Int32.int_max; lia | simpl; lia].
Defined.

(** X16.  Both routines terminate on every input: whatever the array, the
    comparison vectors and the range, a budget of twice [xend] plus three
    iterations lets the call finish, by returning or at an access outside
    an array. *)
Theorem sorts_terminate (x : list Z) (m : sort_mem) (xstart xend : Z) :
  Int32.in_range xstart -> xstart < Int32.int_max -> xend < Int32.int_max ->
  forall fuel, (2 * Z.to_nat xend + 3 <= fuel)%nat ->
    b_insertionsort fuel x xstart xend <> Timeout /\
    insertionsort fuel m xstart xend <> Timeout.
Proof.
  intros Hr Hs Hmax fuel Hf. split.
  - apply b_insertionsort_terminates; assumption.
  - apply insertionsort_terminates; assumption.
Qed.

Lemma sorts_terminate_witness :
  b_insertionsort 9 [3; 1; 2] 1 3 <> Timeout /\
  insertionsort 9 (mk_mem [3; 1; 2] [7; 7; 5] [2; 1; 0]) 1 3 <> Timeout.
Proof.
  apply (sorts_terminate [3; 1; 2] (mk_mem [3; 1; 2] [7; 7; 5] [2; 1; 0]) 1 3);
    [unfold Int32.in_range, Int32.int_min, Int32.int_max; lia
    | unfold Int32.int_max; lia | unfold Int32.int_max; lia | simpl; lia].
Defined.
